(** * AI-CloudOps resource tree: the service layer of [internal/tree]

    A shallow embedding of the tree service (the [treeService] methods of
    package [service]) and the properties of its tree builder, descendant
    resolver, scoped resource aggregation and lifecycle guards.

    Conventions.
    - A Go [int] is a [Z] in the 64-bit two's complement range; [+], [-]
      and [*] wrap around ([Go.add], [Go.sub], [Go.mul]).
    - A Go [map[K]V] is a [gmap K V]; reading a missing key gives the zero
      value ([!!!]); a [map[int]struct{}] is a [gset Z], and the [nil] map
      reads like the empty one.
    - A Go [(T, error)] pair is a [result T]; a run-time panic is [Panic].
    - The recursion of the resolver's closure [dfs] is unbounded in Go; here
      it takes fuel and answers [None] when the fuel runs out. *)

From Stdlib Require Import ZArith Lia.
From stdpp Require Import gmap strings list fin_maps relations pretty.

Local Open Scope Z_scope.

(** ** Go values *)

Module Go.

Definition int_min : Z := - 2 ^ 63.
Definition int_max : Z := 2 ^ 63 - 1.

(** Two's complement wrap-around of a 64-bit signed integer. *)
Definition wrap (z : Z) : Z := (z + 2 ^ 63) `mod` 2 ^ 64 - 2 ^ 63.

Definition add (a b : Z) : Z := wrap (a + b).
Definition sub (a b : Z) : Z := wrap (a - b).
Definition mul (a b : Z) : Z := wrap (a * b).

Definition is_int (z : Z) : Prop := int_min <= z <= int_max.

(** [len(s)] *)
Definition len {A} (s : list A) : Z := Z.of_nat (length s).

(** [strconv.Itoa] *)
Definition Itoa (z : Z) : string := pretty z.

(** Error values.  [errors_New] and [fmt_Errorf] build fresh errors, the
    two sentinels are the package variables of the service, and
    [store_failure] stands for whatever a store call hands back. *)
Inductive error : Type :=
  | errors_New (msg : string)
  | fmt_Errorf (msg : string) (wrapped : error)
  | ErrResourceBound
  | ErrResourceNotFound
  | store_failure (code : Z).

#[global] Instance error_eq_dec : EqDecision error.
Proof. solve_decision. Defined.

(** [errors.Is]: [err] or one of the errors it wraps is [target]. *)
Fixpoint errors_Is (err target : error) : bool :=
  if decide (err = target) then true
  else match err with
       | fmt_Errorf _ inner => errors_Is inner target
       | _ => false
       end.

(** A [(T, error)] pair: the value when the error is nil. *)
Inductive result (A : Type) : Type :=
  | Ok (a : A)
  | Err (e : error).
Arguments Ok {A} a.
Arguments Err {A} e.

(** What a call does: it returns, or the run time panics (a slice bound
    out of range, a nil pointer dereferenced). *)
Inductive outcome (A : Type) : Type :=
  | Return (a : A)
  | Panic.
Arguments Return {A} a.
Arguments Panic {A}.

(** [s[lo:hi]]; the run time checks [0 <= lo <= hi <= cap(s)].  Every
    slice below has [hi <= len(s)], so the bound on [hi] is taken against
    the length. *)
Definition slice {A} (s : list A) (lo hi : Z) : outcome (list A) :=
  if bool_decide (0 <= lo /\ lo <= hi /\ hi <= len s)
  then Return (take (Z.to_nat (hi - lo)) (drop (Z.to_nat lo) s))
  else Panic.

(** [for _, x := range xs { body }] with a body that may run out of
    fuel. *)
Fixpoint for_range {A S} (body : A -> S -> option S) (xs : list A) (s : S)
    : option S :=
  match xs with
  | [] => Some s
  | x :: xs' =>
      match body x s with
      | Some s' => for_range body xs' s'
      | None => None
      end
  end.

End Go.

Import Go.

(** ** The model package: tree nodes and resources *)

(** A [*TreeNode] of one request: the index of the object among those the
    store call allocated. *)
Abbreviation ptr := nat (only parsing).

(** [model.TreeNode].  [Key], [Value] and [Children] are transient; the
    bound ECS rows are kept by their IDs. *)
Record TreeNode : Type := mkTreeNode {
  ID : Z;
  Pid : Z;
  Level : Z;
  IsLeaf : Z;
  Key : string;
  Value : Z;
  Children : list ptr;
  BindEcs : list Z
}.

Definition set_Key (k : string) (n : TreeNode) : TreeNode :=
  mkTreeNode (ID n) (Pid n) (Level n) (IsLeaf n) k (Value n) (Children n) (BindEcs n).

Definition set_Children (c : list ptr) (n : TreeNode) : TreeNode :=
  mkTreeNode (ID n) (Pid n) (Level n) (IsLeaf n) (Key n) (Value n) c (BindEcs n).

(** [model.ResourceTree], the part the three resource kinds share. *)
Record ResourceTree : Type := mkResourceTree {
  rt_ID : Z;
  InstanceName : string;
  Hash : string
}.

Record ResourceEcs : Type := mkResourceEcs {
  ecs_ResourceTree : ResourceTree;
  ecs_IpAddr : string;
  ecs_BindNodes : list TreeNode
}.

Record ResourceElb : Type := mkResourceElb {
  elb_ResourceTree : ResourceTree;
  elb_BindNodes : list TreeNode
}.

Record ResourceRds : Type := mkResourceRds {
  rds_ResourceTree : ResourceTree;
  rds_BindNodes : list TreeNode
}.

(** ** The stores the service talks to

    The service holds its stores behind interfaces; a store call reads the
    database state [DB] and answers a [result], a write hands back the new
    state next to its error.  A fetch by ID answers a pointer that may be
    nil: [Ok None] is Go's [(nil, nil)]. *)

Module tree_node.
Record TreeNodeDAO (DB : Type) : Type := {
  GetAll : DB -> result (list TreeNode);
  GetAllNoPreload : DB -> result (list TreeNode);
  GetByID : DB -> Z -> result (option TreeNode);
  HasChildren : DB -> Z -> result bool;
  Create : DB -> TreeNode -> option error * DB;
  Delete : DB -> Z -> option error * DB
}.
Arguments GetAll {DB} _ _.
Arguments GetAllNoPreload {DB} _ _.
Arguments GetByID {DB} _ _ _.
Arguments HasChildren {DB} _ _ _.
Arguments Create {DB} _ _ _.
Arguments Delete {DB} _ _ _.
End tree_node.

Module ecs.
Record TreeEcsDAO (DB : Type) : Type := {
  GetAll : DB -> result (list ResourceEcs);
  GetByID : DB -> Z -> result (option ResourceEcs);
  Delete : DB -> Z -> option error * DB
}.
Arguments GetAll {DB} _ _.
Arguments GetByID {DB} _ _ _.
Arguments Delete {DB} _ _ _.
End ecs.

Module elb.
Record TreeElbDAO (DB : Type) : Type := {
  GetAll : DB -> result (list ResourceElb)
}.
Arguments GetAll {DB} _ _.
End elb.

Module rds.
Record TreeRdsDAO (DB : Type) : Type := {
  GetAll : DB -> result (list ResourceRds)
}.
Arguments GetAll {DB} _ _.
End rds.

(** ** The service *)

Module service.

(** The two sentinels of the service are [Go.ErrResourceBound] and
    [Go.ErrResourceNotFound]. *)

Record treeService (DB : Type) : Type := {
  ecsDao : ecs.TreeEcsDAO DB;
  elbDao : elb.TreeElbDAO DB;
  rdsDao : rds.TreeRdsDAO DB;
  nodeDao : tree_node.TreeNodeDAO DB
}.
Arguments ecsDao {DB} _.
Arguments elbDao {DB} _.
Arguments rdsDao {DB} _.
Arguments nodeDao {DB} _.

(** *** Tree builder *)

(** The first loop of [ListTreeNodes], at the node [p] points to: set its
    [Key], then file it under the top nodes or under its parent's ID. *)
Definition classify (st : list TreeNode * list ptr * gmap Z (list ptr))
    (p : ptr) : list TreeNode * list ptr * gmap Z (list ptr) :=
  let '(heap, topNodes, childrenMap) := st in
  match heap !! p with
  | None => st
  | Some node =>
      let node := set_Key (Itoa (ID node)) node in
      let heap := <[p := node]> heap in
      if decide (Pid node = 0)
      then (heap, topNodes ++ [p], childrenMap)
      else (heap, topNodes,
            <[Pid node := (childrenMap !!! Pid node) ++ [p]]> childrenMap)
  end.

(** The second loop: hang the children filed under the node's own ID. *)
Definition attach (childrenMap : gmap Z (list ptr)) (heap : list TreeNode)
    (p : ptr) : list TreeNode :=
  match heap !! p with
  | None => heap
  | Some node =>
      match childrenMap !! ID node with
      | Some children => <[p := set_Children children node]> heap
      | None => heap
      end
  end.

(** *** Leaf listing *)

Definition keep_bound (leafNodes : list TreeNode) (node : TreeNode)
    : list TreeNode :=
  if decide (len (BindEcs node) = 0) then leafNodes else leafNodes ++ [node].

(** *** Descendant resolver *)

(** The first loop of [getChildrenTreeNodeIds]: [nodeMap] by ID (a later
    node replaces an earlier one of the same ID) and [childrenMap] by
    parent ID, in the order of the flat list. *)
Definition index_node (maps : gmap Z TreeNode * gmap Z (list TreeNode))
    (node : TreeNode) : gmap Z TreeNode * gmap Z (list TreeNode) :=
  let '(nodeMap, childrenMap) := maps in
  (<[ID node := node]> nodeMap,
   <[Pid node := (childrenMap !!! Pid node) ++ [node]]> childrenMap).

Definition index_nodes (nodes : list TreeNode)
    : gmap Z TreeNode * gmap Z (list TreeNode) :=
  foldl index_node (∅, ∅) nodes.

(** The closure [dfs]; [idMp] is the set it writes to. *)
Fixpoint dfs (nodeMap : gmap Z TreeNode) (childrenMap : gmap Z (list TreeNode))
    (fuel : nat) (nodeId : Z) (idMp : gset Z) : option (gset Z) :=
  match fuel with
  | O => None
  | S fuel' =>
      match nodeMap !! nodeId with
      | None => Some idMp
      | Some node =>
          if decide (IsLeaf node = 1) then Some ({[ID node]} ∪ idMp)
          else
            for_range (fun child => dfs nodeMap childrenMap fuel' (ID child))
                      (childrenMap !!! nodeId) idMp
      end
  end.

(** *** Scoped resource aggregation *)

(** The inner loop over [e.BindNodes], left at the first bound node whose
    ID is in the map. *)
Fixpoint bound_under (nodeIdsMap : gset Z) (bindNodes : list TreeNode) : bool :=
  match bindNodes with
  | [] => false
  | n :: rest =>
      if decide (ID n ∈ nodeIdsMap) then true else bound_under nodeIdsMap rest
  end.

(** The outer loop, the same for the three resource kinds. *)
Definition collect {R : Type} (tree : R -> ResourceTree)
    (bindNodes : R -> list TreeNode) (nodeIdsMap : gset Z) (rows : list R)
    : list ResourceTree :=
  foldl (fun resources e =>
           if bound_under nodeIdsMap (bindNodes e)
           then resources ++ [tree e] else resources)
        [] rows.

(** The page window that ends [GetAllResourcesByType]. *)
Definition paginate {A : Type} (resources : list A) (page size : Z)
    : outcome (result (list A)) :=
  let offset := mul (sub page 1) size in
  if decide (offset >= len resources) then Return (Ok [])
  else
    let end_ := add offset size in
    let end_ := if decide (end_ > len resources) then len resources else end_ in
    match slice resources offset end_ with
    | Return window => Return (Ok window)
    | Panic => Panic
    end.

Section Service.
Context {DB : Type} (ts : treeService DB).

(** [constants.ErrorTreeNodeHasChildren], a message of the constants
    package. *)
Context (ErrorTreeNodeHasChildren : string).

(** [ListTreeNodes] returns pointers; next to the root list the model hands
    back the objects they point into, as the two loops leave them. *)
Definition ListTreeNodes (db : DB) : result (list ptr * list TreeNode) :=
  match tree_node.GetAll (nodeDao ts) db with
  | Err err => Err err
  | Ok nodes =>
      let ps := seq 0 (length nodes) in
      let '(heap, topNodes, childrenMap) := foldl classify (nodes, [], ∅) ps in
      Ok (topNodes, foldl (attach childrenMap) heap ps)
  end.

Definition ListLeafTreeNodes (db : DB) : result (list TreeNode) :=
  match tree_node.GetAll (nodeDao ts) db with
  | Err err => Err err
  | Ok nodes => Ok (foldl keep_bound [] nodes)
  end.

Definition CreateTreeNode (db : DB) (obj : TreeNode) : option error * DB :=
  if decide (Pid obj = 0 /\ Level obj = 1)
  then tree_node.Create (nodeDao ts) db obj
  else
    match tree_node.GetByID (nodeDao ts) db (Pid obj) with
    | Err _ => (Some (errors_New "获取父节点失败"), db)
    | Ok None => (Some (errors_New "父节点不存在"), db)
    | Ok (Some node) =>
        if decide (Level obj >= add (Level node) 2)
        then (Some (errors_New "创建节点失败，节点层级超出限制"), db)
        else if decide (IsLeaf node = 1)
        then (Some (errors_New "创建节点失败，父节点为叶子节点，无法添加子节点"), db)
        else tree_node.Create (nodeDao ts) db obj
    end.

Definition DeleteTreeNode (db : DB) (id : Z) : option error * DB :=
  match tree_node.GetByID (nodeDao ts) db id with
  | Err err => (Some err, db)
  | Ok None => (Some (errors_New "节点不存在"), db)
  | Ok (Some _) =>
      match tree_node.HasChildren (nodeDao ts) db id with
      | Err err => (Some err, db)
      | Ok true => (Some (errors_New ErrorTreeNodeHasChildren), db)
      | Ok false =>
          match tree_node.Delete (nodeDao ts) db id with
          | (Some err, db') => (Some err, db')
          | (None, db') => (None, db')
          end
      end
  end.

(** When the fetch fails the error is logged and the nil map returned; the
    function has no error result. *)
Definition getChildrenTreeNodeIds (fuel : nat) (db : DB) (nid : Z)
    : option (gset Z) :=
  match tree_node.GetAllNoPreload (nodeDao ts) db with
  | Err _ => Some ∅
  | Ok nodes =>
      let '(nodeMap, childrenMap) := index_nodes nodes in
      dfs nodeMap childrenMap fuel nid ∅
  end.

Definition GetAllResourcesByType (fuel : nat) (db : DB) (nid : Z)
    (resourceType : string) (page size : Z)
    : option (outcome (result (list ResourceTree))) :=
  match getChildrenTreeNodeIds fuel db nid with
  | None => None
  | Some nodeIdsMap =>
      let fetched : result (list ResourceTree) :=
        if String.eqb resourceType "ecs" then
          match ecs.GetAll (ecsDao ts) db with
          | Err err => Err err
          | Ok rows => Ok (collect ecs_ResourceTree ecs_BindNodes nodeIdsMap rows)
          end
        else if String.eqb resourceType "elb" then
          match elb.GetAll (elbDao ts) db with
          | Err err => Err err
          | Ok rows => Ok (collect elb_ResourceTree elb_BindNodes nodeIdsMap rows)
          end
        else if String.eqb resourceType "rds" then
          match rds.GetAll (rdsDao ts) db with
          | Err err => Err err
          | Ok rows => Ok (collect rds_ResourceTree rds_BindNodes nodeIdsMap rows)
          end
        else Ok [] in
      match fetched with
      | Err err => Some (Return (Err err))
      | Ok resources => Some (paginate resources page size)
      end
  end.

(** [resource.BindNodes] is read without a nil check: a store that answers
    [(nil, nil)] makes the call panic. *)
Definition DeleteEcsResource (db : DB) (id : Z) : outcome (option error * DB) :=
  match ecs.GetByID (ecsDao ts) db id with
  | Err err =>
      if errors_Is err ErrResourceNotFound
      then Return (Some (fmt_Errorf "资源未找到" err), db)
      else Return (Some (fmt_Errorf "获取 ECS 资源失败" err), db)
  | Ok None => Panic
  | Ok (Some resource) =>
      if decide (len (ecs_BindNodes resource) > 0)
      then Return (Some ErrResourceBound, db)
      else
        match ecs.Delete (ecsDao ts) db id with
        | (Some err, db') => Return (Some (fmt_Errorf "删除 ECS 资源失败" err), db')
        | (None, db') => Return (None, db')
        end
  end.

End Service.

End service.

(** ** The stores in memory

    The store packages are behind the interfaces above.  These are the
    stores as the design describes them: tables of rows, read and written
    by primary key. *)

Module memory.

Record DB : Type := mkDB {
  nodes : list TreeNode;
  ecs_rows : list ResourceEcs;
  elb_rows : list ResourceElb;
  rds_rows : list ResourceRds
}.

Definition with_nodes (rows : list TreeNode) (db : DB) : DB :=
  mkDB rows (ecs_rows db) (elb_rows db) (rds_rows db).

Definition with_ecs_rows (rows : list ResourceEcs) (db : DB) : DB :=
  mkDB (nodes db) rows (elb_rows db) (rds_rows db).

(** The row of a primary key. *)
Definition node_row (rows : list TreeNode) (id : Z) : option TreeNode :=
  find (fun n => bool_decide (ID n = id)) rows.

Definition ecs_row (rows : list ResourceEcs) (id : Z) : option ResourceEcs :=
  find (fun r => bool_decide (rt_ID (ecs_ResourceTree r) = id)) rows.

Section Stores.

(** What the node store answers for an ID that has no row: [None] is Go's
    [(nil, nil)], [Some err] is [(nil, err)].  The service handles both. *)
Context (missing_node : option error).

(** The error of the ECS store for an ID that has no row. *)
Context (missing_ecs : error).

(** Modelled from the spec: the Node Store, a repository of tree nodes
    ([GetAll], [GetAllNoPreload], [GetByID], [HasChildren], [Create],
    [Delete]); the user associations the two flat reads differ in are not
    part of the model. *)
Definition nodeDao : tree_node.TreeNodeDAO DB := {|
  tree_node.GetAll := fun db => Ok (nodes db);
  tree_node.GetAllNoPreload := fun db => Ok (nodes db);
  tree_node.GetByID := fun db id =>
    match node_row (nodes db) id with
    | Some n => Ok (Some n)
    | None => match missing_node with Some err => Err err | None => Ok None end
    end;
  tree_node.HasChildren := fun db id =>
    Ok (existsb (fun n => bool_decide (Pid n = id)) (nodes db));
  tree_node.Create := fun db obj => (None, with_nodes (nodes db ++ [obj]) db);
  tree_node.Delete := fun db id =>
    (None, with_nodes (filter (fun n => ID n ≠ id) (nodes db)) db)
|}.

(** Modelled from the spec: the ECS Resource Store; a fetch by ID fails
    when the row is absent. *)
Definition ecsDao : ecs.TreeEcsDAO DB := {|
  ecs.GetAll := fun db => Ok (ecs_rows db);
  ecs.GetByID := fun db id =>
    match ecs_row (ecs_rows db) id with
    | Some r => Ok (Some r)
    | None => Err missing_ecs
    end;
  ecs.Delete := fun db id =>
    (None,
     with_ecs_rows
       (filter (fun r => rt_ID (ecs_ResourceTree r) ≠ id) (ecs_rows db)) db)
|}.

(** Modelled from the spec: the ELB and RDS Resource Stores. *)
Definition elbDao : elb.TreeElbDAO DB :=
  {| elb.GetAll := fun db => Ok (elb_rows db) |}.

Definition rdsDao : rds.TreeRdsDAO DB :=
  {| rds.GetAll := fun db => Ok (rds_rows db) |}.

Definition treeService : service.treeService DB := {|
  service.ecsDao := ecsDao;
  service.elbDao := elbDao;
  service.rdsDao := rdsDao;
  service.nodeDao := nodeDao
|}.

(** Modelled from the spec: a Node Store that cannot be reached; every
    call comes back with the error [down]. *)
Definition unreachable_nodeDao (down : error) : tree_node.TreeNodeDAO DB := {|
  tree_node.GetAll := fun _ => Err down;
  tree_node.GetAllNoPreload := fun _ => Err down;
  tree_node.GetByID := fun _ _ => Err down;
  tree_node.HasChildren := fun _ _ => Err down;
  tree_node.Create := fun db _ => (Some down, db);
  tree_node.Delete := fun db _ => (Some down, db)
|}.

Definition treeService_nodes_down (down : error) : service.treeService DB := {|
  service.ecsDao := ecsDao;
  service.elbDao := elbDao;
  service.rdsDao := rdsDao;
  service.nodeDao := unreachable_nodeDao down
|}.

End Stores.

End memory.

(** ** The vocabulary of the properties *)

Module tree.

(** [id] is the ID of a node of the flat set. *)
Definition is_node (nodes : list TreeNode) (id : Z) : Prop :=
  ∃ n, n ∈ nodes ∧ ID n = id.

(** [c] is the ID of a node whose parent link is [p]. *)
Definition child_of (nodes : list TreeNode) (p c : Z) : Prop :=
  ∃ n, n ∈ nodes ∧ ID n = c ∧ Pid n = p.

Definition is_leaf (nodes : list TreeNode) (id : Z) : Prop :=
  ∃ n, n ∈ nodes ∧ ID n = id ∧ IsLeaf n = 1.

(** [x] is a leaf of the subtree rooted at the node [r]. *)
Definition leaf_under (nodes : list TreeNode) (r x : Z) : Prop :=
  is_node nodes r ∧ rtc (child_of nodes) r x ∧ is_leaf nodes x.

(** The number of nodes on the chain of parent links that starts at [id],
    when the chain leaves the set within [fuel] links. *)
Fixpoint depth (nodes : list TreeNode) (fuel : nat) (id : Z) : option nat :=
  match fuel with
  | O => None
  | S fuel' =>
      match memory.node_row nodes id with
      | None => Some O
      | Some n => S <$> depth nodes fuel' (Pid n)
      end
  end.

(** The IDs of the nodes on that chain, the first [fuel] of them. *)
Fixpoint ancestors (nodes : list TreeNode) (fuel : nat) (id : Z) : list Z :=
  match fuel with
  | O => []
  | S fuel' =>
      match memory.node_row nodes id with
      | None => []
      | Some n => id :: ancestors nodes fuel' (Pid n)
      end
  end.

(** No two nodes share an ID, so a node has the one parent its [Pid]
    names. *)
Definition distinct_ids (nodes : list TreeNode) : bool :=
  bool_decide (NoDup (ID <$> nodes)).

(** From no node do the parent links lead back to it: a chain of distinct
    nodes is no longer than the set, so every chain has left the set after
    [length nodes] links ([acyclic_iff] below: with distinct IDs this is
    exactly that [child_of] has no cycle). *)
Definition acyclic (nodes : list TreeNode) : bool :=
  forallb (fun n => bool_decide (is_Some (depth nodes (S (length nodes)) (ID n))))
          nodes.

(** No node names a leaf as its parent. *)
Definition leaves_childless (nodes : list TreeNode) : bool :=
  forallb (fun n =>
             implb (bool_decide (IsLeaf n = 1))
                   (forallb (fun m => bool_decide (Pid m ≠ ID n)) nodes))
          nodes.


Definition well_formed (nodes : list TreeNode) : bool :=
  distinct_ids nodes && acyclic nodes && leaves_childless nodes.

(** Every parent link is 0 or the ID of a node of the set. *)
Definition parents_present (nodes : list TreeNode) : bool :=
  forallb (fun n =>
             bool_decide (Pid n = 0)
             || existsb (fun m => bool_decide (ID m = Pid n)) nodes)
          nodes.





(** The number of pages of [k] items that [total] items fill. *)
Definition page_count (total k : Z) : Z := (total + k - 1) `div` k.

(** The items of a page that came back without error. *)
Definition window {A : Type} (page : outcome (result (list A))) : list A :=
  match page with
  | Return (Ok items) => items
  | _ => []
  end.

End tree.

(** ** The rest of the model package *)

(** [model.User], as far as the tree service handles it. *)
Record User : Type := mkUser {
  user_ID : Z;
  Username : string
}.

(** The role fields of [model.TreeNode], which the operations above do not
    read: the user names of an update request and the users they resolve
    to.  A [*User] may be nil. *)
Record TreeNodeRoles : Type := mkTreeNodeRoles {
  OpsAdminUsers : list string;
  RdAdminUsers : list string;
  RdMemberUsers : list string;
  OpsAdmins : list (option User);
  RdAdmins : list (option User);
  RdMembers : list (option User)
}.

Definition set_Value (v : Z) (n : TreeNode) : TreeNode :=
  mkTreeNode (ID n) (Pid n) (Level n) (IsLeaf n) (Key n) v (Children n) (BindEcs n).

Definition set_Hash (h : string) (r : ResourceEcs) : ResourceEcs :=
  mkResourceEcs
    (mkResourceTree (rt_ID (ecs_ResourceTree r))
                    (InstanceName (ecs_ResourceTree r)) h)
    (ecs_IpAddr r) (ecs_BindNodes r).

(** [model.Menu] and [model.Role], as far as the role service handles
    them. *)
Record Menu : Type := mkMenu {
  menu_ID : Z;
  menu_Name : string
}.

Record Role : Type := mkRole {
  role_Name : string;
  MenuIds : list Z;
  Menus : list (option Menu)
}.

Definition set_Menus (menus : list (option Menu)) (r : Role) : Role :=
  mkRole (role_Name r) (MenuIds r) menus.

(** ** The forest by its nodes *)

Module forest.

(** The pointers to the nodes without parent, in the order of the store. *)
Definition roots (nodes : list TreeNode) : list ptr :=
  filter (fun p => (Pid <$> nodes) !! p = Some 0) (seq 0 (length nodes)).

(** The pointers to the nodes whose parent link is [id], in the order of
    the store; none when [id] is 0. *)
Definition children_of (nodes : list TreeNode) (id : Z) : list ptr :=
  filter (fun p => id ≠ 0 ∧ (Pid <$> nodes) !! p = Some id)
         (seq 0 (length nodes)).

Definition keyed (node : TreeNode) : TreeNode :=
  set_Key (Itoa (ID node)) node.

(** What the second loop does to a node. *)
Definition hang (childrenMap : gmap Z (list ptr)) (node : TreeNode) : TreeNode :=
  match childrenMap !! ID node with
  | Some children => set_Children children node
  | None => node
  end.

(** A node as the tree builder leaves it: its key set, and its children
    hung on it when it has any. *)
Definition placed (nodes : list TreeNode) (node : TreeNode) : TreeNode :=
  if decide (children_of nodes (ID node) = []) then keyed node
  else set_Children (children_of nodes (ID node)) (keyed node).

End forest.

(** ** The invariant of the node table *)

Module invariant.

Definition positive_ids (nodes : list TreeNode) : bool :=
  forallb (fun n => bool_decide (ID n ≠ 0)) nodes.

(** The levels are [int]s; a node without parent link has level 1, and no
    node has a level more than one above that of the node its parent link
    names. *)
Definition levels (nodes : list TreeNode) : bool :=
  forallb (fun n =>
             bool_decide (int_min <= Level n <= int_max)
             && implb (bool_decide (Pid n = 0)) (bool_decide (Level n = 1))
             && forallb (fun p =>
                           implb (bool_decide (ID p = Pid n))
                                 (bool_decide (Level n <= Level p + 1)))
                        nodes)
          nodes.

(** IDs distinct and not 0, parent links acyclic and each 0 or the ID of a
    node, no leaf named as parent, and the levels as above. *)
Definition holds (nodes : list TreeNode) : bool :=
  tree.well_formed nodes && tree.parents_present nodes && positive_ids nodes
  && levels nodes.

End invariant.

(** ** The other store calls *)

Module dao.

Record UserDAO (DB : Type) : Type := {
  GetUserByUsername : DB -> string -> result (option User)
}.
Arguments GetUserByUsername {DB} _ _ _.

(** The write of the node store that the operations above do not make. *)
Record TreeNodeWrites (DB : Type) : Type := {
  node_Update : DB -> TreeNode -> TreeNodeRoles -> option error * DB
}.
Arguments node_Update {DB} _ _ _ _.

Record MenuDAO (DB : Type) : Type := {
  GetMenuByID : DB -> Z -> result (option Menu)
}.
Arguments GetMenuByID {DB} _ _ _.

Record RoleDAO (DB : Type) : Type := {
  role_CreateRole : DB -> Role -> option error * DB;
  role_UpdateRole : DB -> Role -> option error * DB
}.
Arguments role_CreateRole {DB} _ _ _.
Arguments role_UpdateRole {DB} _ _ _.

End dao.

(** ** The other methods of the tree service *)

Module tree_service.

(** [encoding/hex]: the two digits of a byte, high nibble first. *)
Definition hextable : string := "0123456789abcdef".

Definition hexdigit (i : N) : Ascii.ascii :=
  default Ascii.zero (String.get (N.to_nat i) hextable).

Fixpoint EncodeToString (src : list Byte.byte) : string :=
  match src with
  | [] => EmptyString
  | v :: rest =>
      String (hexdigit (N.shiftr (Byte.to_N v) 4))
             (String (hexdigit (N.land (Byte.to_N v) 15)) (EncodeToString rest))
  end.

(** One round of the loop of [SelectTreeNode]. *)
Definition select_node (level levelLt : Z) (filteredNodes : list TreeNode)
    (node : TreeNode) : list TreeNode :=
  if decide (level > 0 /\ Level node ≠ level) then filteredNodes
  else if decide (levelLt > 0 /\ Level node > levelLt) then filteredNodes
  else filteredNodes ++ [set_Value (ID node) node].

(** One round of the loop of the three unbind lists. *)
Definition keep_unbound {R : Type} (bindNodes : R -> list TreeNode)
    (unbind : list R) (e : R) : list R :=
  if decide (len (bindNodes e) = 0) then unbind ++ [e] else unbind.

Section Service.
Context {DB : Type} (ts : service.treeService DB).
Context (userDao : dao.UserDAO DB) (nodeWrites : dao.TreeNodeWrites DB).
Context (ecs_Create : DB -> ResourceEcs -> option error * DB).

(** [crypto/sha256]: the digest of a byte string. *)
Context (Sum256 : list Byte.byte -> list Byte.byte).

Definition SelectTreeNode (db : DB) (level levelLt : Z)
    : result (list TreeNode) :=
  match tree_node.GetAll (service.nodeDao ts) db with
  | Err err => Err err
  | Ok nodes => Ok (foldl (select_node level levelLt) [] nodes)
  end.

Definition GetEcsUnbindList (db : DB) : result (list ResourceEcs) :=
  match ecs.GetAll (service.ecsDao ts) db with
  | Err err => Err err
  | Ok rows => Ok (foldl (keep_unbound ecs_BindNodes) [] rows)
  end.

Definition GetElbUnbindList (db : DB) : result (list ResourceElb) :=
  match elb.GetAll (service.elbDao ts) db with
  | Err err => Err err
  | Ok rows => Ok (foldl (keep_unbound elb_BindNodes) [] rows)
  end.

Definition GetRdsUnbindList (db : DB) : result (list ResourceRds) :=
  match rds.GetAll (service.rdsDao ts) db with
  | Err err => Err err
  | Ok rows => Ok (foldl (keep_unbound rds_BindNodes) [] rows)
  end.

(** The loop of [fetchUsers]: it returns at the first name the store fails
    on; [role] only goes to the log. *)
Fixpoint fetchUsers_from (db : DB) (userNames : list string)
    (users : list (option User)) : result (list (option User)) :=
  match userNames with
  | [] => Ok users
  | userName :: rest =>
      match dao.GetUserByUsername userDao db userName with
      | Err err => Err err
      | Ok user => fetchUsers_from db rest (users ++ [user])
      end
  end.

Definition fetchUsers (db : DB) (userNames : list string) (role : string)
    : result (list (option User)) :=
  fetchUsers_from db userNames [].

(** [UpdateTreeNode] writes the resolved users into [obj] before it calls
    the store; the model hands back the role fields of [obj] as the call
    leaves them. *)
Definition UpdateTreeNode (db : DB) (obj : TreeNode) (roles : TreeNodeRoles)
    : option error * TreeNodeRoles * DB :=
  match fetchUsers db (OpsAdminUsers roles) "OpsAdmin" with
  | Err err => (Some err, roles, db)
  | Ok usersOpsAdmin =>
      match fetchUsers db (RdAdminUsers roles) "RdAdmin" with
      | Err err => (Some err, roles, db)
      | Ok usersRdAdmin =>
          match fetchUsers db (RdMemberUsers roles) "RdMember" with
          | Err err => (Some err, roles, db)
          | Ok usersRdMember =>
              let roles :=
                mkTreeNodeRoles (OpsAdminUsers roles) (RdAdminUsers roles)
                  (RdMemberUsers roles) usersOpsAdmin usersRdAdmin usersRdMember in
              match dao.node_Update nodeWrites db obj roles with
              | (Some _, db') =>
                  (Some (errors_New "持久化树节点信息失败"), roles, db')
              | (None, db') => (None, roles, db')
              end
          end
      end
  end.

(** [fmt.Sprintf("%s-%s", ...)], its bytes hashed and the digest printed in
    hexadecimal. *)
Definition generateResourceHash (resource : ResourceEcs) : string :=
  let data :=
    (InstanceName (ecs_ResourceTree resource) +:+ "-" +:+ ecs_IpAddr resource)%string in
  let hash := Sum256 (String.list_byte_of_string data) in
  EncodeToString hash.

(** The call hands back the resource as it stored it, its [Hash] set. *)
Definition CreateEcsResource (db : DB) (resource : ResourceEcs)
    : option error * ResourceEcs * DB :=
  let resource := set_Hash (generateResourceHash resource) resource in
  match ecs_Create db resource with
  | (Some err, db') => (Some err, resource, db')
  | (None, db') => (None, resource, db')
  end.

End Service.

End tree_service.

(** ** The role service *)

Module role.

Section Service.
Context {DB : Type} (menuDao : dao.MenuDAO DB) (roleDao : dao.RoleDAO DB).

(** The loop of [getMenusByIDs]: it returns at the first ID the store fails
    on. *)
Fixpoint getMenusByIDs_from (db : DB) (menuIds : list Z)
    (menus : list (option Menu)) : result (list (option Menu)) :=
  match menuIds with
  | [] => Ok menus
  | menuId :: rest =>
      match dao.GetMenuByID menuDao db menuId with
      | Err err => Err err
      | Ok menu => getMenusByIDs_from db rest (menus ++ [menu])
      end
  end.

Definition getMenusByIDs (db : DB) (menuIds : list Z)
    : result (list (option Menu)) :=
  getMenusByIDs_from db menuIds [].

Definition CreateRole (db : DB) (role : Role) : option error * DB :=
  match getMenusByIDs db (MenuIds role) with
  | Err err => (Some err, db)
  | Ok menus => dao.role_CreateRole roleDao db (set_Menus menus role)
  end.

Definition UpdateRole (db : DB) (role : Role) : option error * DB :=
  match getMenusByIDs db (MenuIds role) with
  | Err err => (Some err, db)
  | Ok menus => dao.role_UpdateRole roleDao db (set_Menus menus role)
  end.

End Service.

End role.

(** ** Sample data *)

Module sample.

Definition node (id pid level isLeaf : Z) : TreeNode :=
  mkTreeNode id pid level isLeaf "" 0 [] [].

(** The node set of the design's example: a root and its two leaves. *)
Definition family : list TreeNode :=
  [node 1 0 1 0; node 2 1 2 1; node 3 1 2 1].

(** Two inner nodes that name each other as parent. *)
Definition loop : list TreeNode := [node 1 2 1 0; node 2 1 2 0].



Definition db_of (rows : list TreeNode) : memory.DB := memory.mkDB rows [] [] [].

(** The service over the stores in memory; a missing node row is
    [(nil, nil)], a missing ECS row is the not-found sentinel. *)
Definition svc : service.treeService memory.DB :=
  memory.treeService None ErrResourceNotFound.

(** The ECS resource of the design's example, bound to node 2 only. *)
Definition E1 : ResourceEcs :=
  mkResourceEcs (mkResourceTree 1 "E1" "") "10.0.0.1" [node 2 1 2 1].

(** An ECS resource that is bound to no node. *)
Definition E2 : ResourceEcs :=
  mkResourceEcs (mkResourceTree 2 "E2" "") "10.0.0.2" [].

Definition db_bound : memory.DB := memory.mkDB family [E1; E2] [] [].

(** The same service when the node store cannot be reached. *)
Definition svc_nodes_down : service.treeService memory.DB :=
  memory.treeService_nodes_down ErrResourceNotFound (store_failure 1).

(** A parent whose level is one below the largest [int], so that its level
    plus 2 is past it, and a child request of level 1 under it. *)
Definition tall_parent : TreeNode := node 1 0 (int_max - 1) 0.
Definition low_child : TreeNode := node 2 1 1 0.

(** A node with a bound ECS row that is not a leaf, and a leaf without
    one. *)
Definition bound_inner : TreeNode := mkTreeNode 1 0 1 0 "" 0 [] [1].
Definition bare_leaf : TreeNode := mkTreeNode 2 1 2 1 "" 0 [] [].

End sample.

(** ** More sample data *)

Module sample_more.

(** A set that breaks the invariants: two nodes share the ID 2, and the
    leaf 2 is named as parent by node 3. *)
Definition crooked : list TreeNode :=
  [sample.node 1 0 1 0; sample.node 2 1 2 1; sample.node 3 2 3 1;
   sample.node 2 1 2 1].

(** A load balancer bound to node 3 and a database bound to no node. *)
Definition L1 : ResourceElb :=
  mkResourceElb (mkResourceTree 11 "L1" "") [sample.node 3 1 2 1].

Definition D1 : ResourceRds :=
  mkResourceRds (mkResourceTree 21 "D1" "") [].

Definition db_mixed : memory.DB :=
  memory.mkDB sample.family [sample.E1; sample.E2] [L1] [D1].

(** A user store that knows every name but one, and fails on that one. *)
Definition userDao : dao.UserDAO memory.DB := {|
  dao.GetUserByUsername := fun _ name =>
    if decide (name = "ghost") then Err (store_failure 2)
    else Ok (Some (mkUser (Z.of_nat (String.length name)) name))
|}.

(** Node writes that always fail. *)
Definition nodeWrites_failing : dao.TreeNodeWrites memory.DB := {|
  dao.node_Update := fun db _ _ => (Some (store_failure 3), db)
|}.

(** A request whose second list has the name the store fails on, and one
    whose names all resolve. *)
Definition roles_ghost : TreeNodeRoles :=
  mkTreeNodeRoles ["ann"] ["ghost"; "bob"] ["cy"] [] [] [].

Definition roles_known : TreeNodeRoles :=
  mkTreeNodeRoles ["ann"] [] ["bob"; "cy"] [] [] [].

(** A menu store that has the menus 1 and 2 and fails on every other
    ID, and a role store that keeps nothing. *)
Definition menuDao : dao.MenuDAO memory.DB := {|
  dao.GetMenuByID := fun _ id =>
    if decide (id = 1 \/ id = 2) then Ok (Some (mkMenu id "menu"))
    else Err (store_failure 4)
|}.

Definition roleDao : dao.RoleDAO memory.DB := {|
  dao.role_CreateRole := fun db _ => (None, db);
  dao.role_UpdateRole := fun db _ => (None, db)
|}.

(** A digest function of the right length, for sample runs only. *)
Definition zero_digest (_ : list Byte.byte) : list Byte.byte :=
  repeat Byte.x00 32.

(** Two ECS resources whose names and addresses differ and whose joined
    name and address agree. *)
Definition E3 : ResourceEcs :=
  mkResourceEcs (mkResourceTree 3 "web-eu" "") "10.0.0.3" [].

Definition E4 : ResourceEcs :=
  mkResourceEcs (mkResourceTree 4 "web" "") "eu-10.0.0.3" [].

End sample_more.

(** * Properties *)

(** ** Machine integers *)

Lemma wrap_small (z : Z) : is_int z -> wrap z = z.
Proof.
  unfold is_int, int_min, int_max, wrap. intros Hz.
  rewrite Z.mod_small; lia.
Qed.

Lemma len_nonneg {A} (s : list A) : 0 <= len s.
Proof. unfold len. lia. Qed.

(** ** Rows by primary key *)

Section Rows.
Context (nodes : list TreeNode).

Lemma node_row_Some id n :
  memory.node_row nodes id = Some n -> n ∈ nodes ∧ ID n = id.
Proof.
  unfold memory.node_row. intros Hf. apply find_some in Hf as [Hin Hid].
  split; [by apply list_elem_of_In | by apply bool_decide_eq_true in Hid].
Qed.

Lemma node_row_None id n :
  memory.node_row nodes id = None -> n ∈ nodes -> ID n ≠ id.
Proof.
  unfold memory.node_row. intros Hf Hin Hid.
  apply list_elem_of_In in Hin.
  pose proof (find_none _ _ Hf _ Hin) as Hb. simpl in Hb.
  by apply bool_decide_eq_false in Hb.
Qed.

Lemma node_row_is_node id :
  tree.is_node nodes id <-> is_Some (memory.node_row nodes id).
Proof.
  split.
  - intros (n & Hin & Hid).
    destruct (memory.node_row nodes id) eqn:Hr; [by eexists |].
    by destruct (node_row_None _ _ Hr Hin).
  - intros [n Hr]. exists n. by apply node_row_Some.
Qed.

End Rows.

Lemma node_row_distinct (nodes : list TreeNode) n :
  NoDup (ID <$> nodes) -> n ∈ nodes -> memory.node_row nodes (ID n) = Some n.
Proof.
  unfold memory.node_row.
  induction nodes as [|a l IH]; intros Hnd Hin; [by apply elem_of_nil in Hin |].
  rewrite fmap_cons in Hnd. apply NoDup_cons in Hnd as [Ha Hl].
  simpl. apply elem_of_cons in Hin as [-> | Hin].
  - by rewrite bool_decide_eq_true_2.
  - rewrite bool_decide_eq_false_2; [by apply IH |].
    intros Heq. apply Ha. rewrite Heq. by apply list_elem_of_fmap_2.
Qed.

(** ** The two maps of the resolver *)

Lemma index_children_from nodes nodeMap childrenMap p :
  (foldl service.index_node (nodeMap, childrenMap) nodes).2 !!! p
  = (childrenMap !!! p) ++ filter (fun n => Pid n = p) nodes.
Proof.
  revert nodeMap childrenMap.
  induction nodes as [|a l IH]; intros nm cm; simpl.
  - by rewrite app_nil_r.
  - rewrite IH. rewrite filter_cons.
    destruct (decide (Pid a = p)) as [-> | Hne].
    + rewrite lookup_total_insert_eq. by rewrite <- app_assoc.
    + by rewrite lookup_total_insert_ne.
Qed.

Lemma index_children nodes p :
  (service.index_nodes nodes).2 !!! p = filter (fun n => Pid n = p) nodes.
Proof.
  unfold service.index_nodes. rewrite index_children_from.
  by rewrite lookup_total_empty.
Qed.



Lemma index_node_distinct_from nodes nodeMap childrenMap id :
  NoDup (ID <$> nodes) ->
  (foldl service.index_node (nodeMap, childrenMap) nodes).1 !! id
  = match memory.node_row nodes id with
    | Some n => Some n
    | None => nodeMap !! id
    end.
Proof.
  revert nodeMap childrenMap.
  induction nodes as [|a l IH]; intros nm cm Hnd; [done |].
  rewrite fmap_cons in Hnd. apply NoDup_cons in Hnd as [Ha Hl].
  simpl. rewrite (IH _ _ Hl). unfold memory.node_row. simpl.
  destruct (decide (ID a = id)) as [<- | Hne].
  - rewrite bool_decide_eq_true_2 by done.
    destruct (find _ l) as [n|] eqn:Hf; [| by rewrite lookup_insert_eq].
    apply (node_row_Some l) in Hf as [Hin Hid].
    destruct Ha. rewrite <- Hid. by apply list_elem_of_fmap_2.
  - rewrite bool_decide_eq_false_2 by done.
    destruct (find _ l); [done |]. by rewrite lookup_insert_ne.
Qed.

Lemma index_node_distinct nodes id :
  NoDup (ID <$> nodes) ->
  (service.index_nodes nodes).1 !! id = memory.node_row nodes id.
Proof.
  intros Hnd. unfold service.index_nodes.
  rewrite index_node_distinct_from by done.
  destruct (memory.node_row nodes id); [done | apply lookup_empty].
Qed.

(** ** Loops *)

Lemma for_range_total {A S} (body : A -> S -> option S) xs s :
  (∀ x s', x ∈ xs -> is_Some (body x s')) -> is_Some (for_range body xs s).
Proof.
  revert s. induction xs as [|x xs IH]; intros s Hbody; simpl; [by eexists |].
  destruct (Hbody x s) as [s' Hs']; [apply elem_of_cons; by left |].
  rewrite Hs'. apply IH. intros y t Hy. apply Hbody, elem_of_cons. by right.
Qed.

Lemma for_range_mono {A S} (body body' : A -> S -> option S) xs s r :
  (∀ x t t', x ∈ xs -> body x t = Some t' -> body' x t = Some t') ->
  for_range body xs s = Some r -> for_range body' xs s = Some r.
Proof.
  revert s. induction xs as [|x xs IH]; intros s Hbody; simpl; [done |].
  destruct (body x s) as [s'|] eqn:Hs'; [| done].
  rewrite (Hbody x s s'); [| apply elem_of_cons; by left | done].
  apply IH. intros y t t' Hy. apply Hbody, elem_of_cons. by right.
Qed.

(** A loop whose body adds to the set what [P] says of its item adds what
    [P] says of some item. *)
Lemma for_range_collects {A} (P : A -> Z -> Prop)
    (body : A -> gset Z -> option (gset Z)) xs acc s :
  (∀ c a t, c ∈ xs -> body c a = Some t -> ∀ x, x ∈ t <-> x ∈ a ∨ P c x) ->
  for_range body xs acc = Some s ->
  ∀ x, x ∈ s <-> x ∈ acc ∨ ∃ c, c ∈ xs ∧ P c x.
Proof.
  revert acc. induction xs as [|c xs IH]; intros acc Hbody; simpl.
  - intros [= <-] x. split; [by left |].
    intros [? | (c & Hc & _)]; [done | by apply elem_of_nil in Hc].
  - destruct (body c acc) as [t|] eqn:Ht; [| done]. intros Hs x.
    rewrite (IH t); [| | exact Hs].
    + rewrite (Hbody c acc t); [| apply elem_of_cons; by left | done].
      split.
      * intros [[? | ?] | (c' & Hc' & ?)]; [by left | |].
        -- right. exists c. split; [apply elem_of_cons; by left | done].
        -- right. exists c'. split; [apply elem_of_cons; by right | done].
      * intros [? | (c' & Hc' & ?)]; [by left; left |].
        apply elem_of_cons in Hc' as [-> | Hc']; [by left; right |].
        right. by exists c'.
    + intros c' a t' Hc'. apply Hbody, elem_of_cons. by right.
Qed.

(** ** Depth along the parent links *)

Lemma depth_bound nodes fuel id d :
  tree.depth nodes fuel id = Some d -> (d < fuel)%nat.
Proof.
  revert id d. induction fuel as [|fuel IH]; intros id d; simpl; [done |].
  destruct (memory.node_row nodes id) as [n|]; [| intros [= <-]; lia].
  destruct (tree.depth nodes fuel (Pid n)) as [d'|] eqn:Hd; [| done].
  intros [= <-]. apply IH in Hd. lia.
Qed.

Lemma depth_more_fuel nodes fuel id d :
  tree.depth nodes fuel id = Some d -> tree.depth nodes (S fuel) id = Some d.
Proof.
  revert id d. induction fuel as [|fuel IH]; intros id d; [done |].
  intros Hd. simpl in Hd. change (tree.depth nodes (S (S fuel)) id) with
    (match memory.node_row nodes id with
     | None => Some O
     | Some n => S <$> tree.depth nodes (S fuel) (Pid n)
     end).
  destruct (memory.node_row nodes id) as [n|]; [| done].
  destruct (tree.depth nodes fuel (Pid n)) as [d'|] eqn:Hd'; [| done].
  by rewrite (IH _ _ Hd').
Qed.

Lemma acyclic_depth nodes n :
  tree.acyclic nodes = true -> n ∈ nodes ->
  is_Some (tree.depth nodes (S (length nodes)) (ID n)).
Proof.
  unfold tree.acyclic. rewrite forallb_forall. intros Hall Hin.
  apply list_elem_of_In in Hin. apply Hall in Hin.
  by apply bool_decide_eq_true in Hin.
Qed.

(** A child lies one deeper than its parent. *)
Lemma depth_child nodes c d :
  NoDup (ID <$> nodes) -> tree.acyclic nodes = true -> c ∈ nodes ->
  tree.depth nodes (S (length nodes)) (Pid c) = Some d ->
  tree.depth nodes (S (length nodes)) (ID c) = Some (S d).
Proof.
  intros Hnd Hac Hin Hd.
  destruct (acyclic_depth _ _ Hac Hin) as [dc Hdc].
  rewrite Hdc. simpl in Hdc. rewrite (node_row_distinct _ _ Hnd Hin) in Hdc.
  destruct (tree.depth nodes (length nodes) (Pid c)) as [d'|] eqn:Hd'; [| done].
  apply depth_more_fuel in Hd'. rewrite Hd' in Hd.
  injection Hd as <-. by injection Hdc as <-.
Qed.

Lemma depth_total nodes id :
  tree.acyclic nodes = true ->
  is_Some (tree.depth nodes (S (length nodes)) id).
Proof.
  intros Hac. destruct (memory.node_row nodes id) as [n|] eqn:Hrow.
  - apply node_row_Some in Hrow as [Hin <-]. by apply acyclic_depth.
  - simpl. rewrite Hrow. by eexists.
Qed.

(** ** The traversal *)

Lemma dfs_unfold nodeMap childrenMap fuel nodeId idMp :
  service.dfs nodeMap childrenMap (S fuel) nodeId idMp
  = match nodeMap !! nodeId with
    | None => Some idMp
    | Some node =>
        if decide (IsLeaf node = 1) then Some ({[ID node]} ∪ idMp)
        else for_range
               (fun child => service.dfs nodeMap childrenMap fuel (ID child))
               (childrenMap !!! nodeId) idMp
    end.
Proof. reflexivity. Qed.

Lemma dfs_more_fuel nodeMap childrenMap fuel nodeId idMp s :
  service.dfs nodeMap childrenMap fuel nodeId idMp = Some s ->
  service.dfs nodeMap childrenMap (S fuel) nodeId idMp = Some s.
Proof.
  revert nodeId idMp s.
  induction fuel as [|fuel IH]; intros id acc s; [done |].
  rewrite (dfs_unfold _ _ (S fuel)), dfs_unfold.
  destruct (nodeMap !! id) as [node|]; [| done].
  destruct (decide (IsLeaf node = 1)); [done |].
  apply for_range_mono. intros c t t' _. apply IH.
Qed.

Lemma dfs_enough_fuel nodeMap childrenMap fuel fuel' nodeId idMp s :
  (fuel <= fuel')%nat ->
  service.dfs nodeMap childrenMap fuel nodeId idMp = Some s ->
  service.dfs nodeMap childrenMap fuel' nodeId idMp = Some s.
Proof.
  induction 1 as [|fuel' _ IH]; [done |].
  intros Hs. by apply dfs_more_fuel, IH.
Qed.

Lemma leaves_childless_spec nodes n m :
  tree.leaves_childless nodes = true ->
  n ∈ nodes -> IsLeaf n = 1 -> m ∈ nodes -> Pid m ≠ ID n.
Proof.
  unfold tree.leaves_childless. rewrite forallb_forall.
  intros Hall Hn Hleaf Hm. apply list_elem_of_In in Hn, Hm.
  specialize (Hall n Hn). rewrite bool_decide_eq_true_2 in Hall by done.
  simpl in Hall. rewrite forallb_forall in Hall.
  specialize (Hall m Hm). by apply bool_decide_eq_true in Hall.
Qed.

Section Resolver.
Context (nodes : list TreeNode).
Context (Hdistinct : NoDup (ID <$> nodes)).

Lemma dfs_terminates k id d idMp :
  tree.acyclic nodes = true ->
  tree.depth nodes (S (length nodes)) id = Some d ->
  (length nodes + 1 <= d + k)%nat ->
  is_Some (service.dfs (service.index_nodes nodes).1 (service.index_nodes nodes).2
                       (S k) id idMp).
Proof.
  intros Hac. revert id d idMp.
  induction k as [|k IH]; intros id d acc Hd Hk.
  - apply depth_bound in Hd. lia.
  - rewrite dfs_unfold, index_node_distinct by done.
    destruct (memory.node_row nodes id) as [node|] eqn:Hrow; [| by eexists].
    destruct (decide (IsLeaf node = 1)); [by eexists |].
    apply for_range_total. intros c t Hc.
    rewrite index_children in Hc. apply list_elem_of_filter in Hc as [Hpid Hin].
    apply (IH _ (S d)); [| lia].
    apply depth_child; [done .. |]. by rewrite Hpid.
Qed.

(** A leaf is the one leaf of its subtree. *)
Lemma leaf_under_leaf id node x :
  tree.leaves_childless nodes = true ->
  memory.node_row nodes id = Some node -> IsLeaf node = 1 ->
  tree.leaf_under nodes id x <-> x = id.
Proof.
  intros Hch Hrow Hleaf. apply node_row_Some in Hrow as [Hin Hid].
  split.
  - intros (_ & Hrtc & _). apply rtc_inv in Hrtc as [-> | (y & Hstep & _)]; [done |].
    destruct Hstep as (m & Hm & _ & Hpid).
    destruct (leaves_childless_spec _ _ _ Hch Hin Hleaf Hm). congruence.
  - intros ->. split; [by exists node |]. split; [apply rtc_refl |].
    by exists node.
Qed.

(** The leaves under an inner node are those under its children. *)
Lemma leaf_under_inner id node x :
  memory.node_row nodes id = Some node -> IsLeaf node ≠ 1 ->
  tree.leaf_under nodes id x
  <-> ∃ c, c ∈ filter (fun n => Pid n = id) nodes ∧ tree.leaf_under nodes (ID c) x.
Proof.
  intros Hrow Hinner. split.
  - intros (_ & Hrtc & Hx).
    apply rtc_inv in Hrtc as [-> | (y & (c & Hc & Hcid & Hpid) & Hrest)].
    + destruct Hx as (n & Hn & Hnid & Hleaf).
      rewrite <- Hnid, (node_row_distinct _ _ Hdistinct Hn) in Hrow. congruence.
    + exists c. split; [by apply list_elem_of_filter |].
      subst y. split; [by exists c | done].
  - intros (c & Hc & (_ & Hrtc & Hx)).
    apply list_elem_of_filter in Hc as [Hpid Hc].
    apply node_row_Some in Hrow as [Hin Hid].
    split; [by exists node |]. split; [| done].
    eapply rtc_l; [| exact Hrtc]. by exists c.
Qed.

Lemma dfs_leaves fuel id idMp s :
  tree.leaves_childless nodes = true ->
  service.dfs (service.index_nodes nodes).1 (service.index_nodes nodes).2
              fuel id idMp = Some s ->
  ∀ x, x ∈ s <-> x ∈ idMp ∨ tree.leaf_under nodes id x.
Proof.
  intros Hch. revert id idMp s.
  induction fuel as [|fuel IH]; intros id acc s; [done |].
  rewrite dfs_unfold, index_node_distinct by done.
  destruct (memory.node_row nodes id) as [node|] eqn:Hrow.
  - destruct (decide (IsLeaf node = 1)) as [Hleaf | Hinner].
    + intros [= <-] x. rewrite (leaf_under_leaf _ _ _ Hch Hrow Hleaf).
      apply node_row_Some in Hrow as [_ ->].
      rewrite elem_of_union, elem_of_singleton. tauto.
    + intros Hs x. rewrite (leaf_under_inner _ _ _ Hrow Hinner).
      rewrite index_children in Hs.
      revert x. eapply for_range_collects; [| exact Hs].
      intros c a t _ Ht. by apply IH.
  - intros [= <-] x. split; [by left |].
    intros [? | (Hnode & _)]; [done |].
    apply node_row_is_node in Hnode as [? ?]. congruence.
Qed.

End Resolver.

(** ** The test for cycles is exact *)

Section Acyclic.
Context (nodes : list TreeNode).
Context (Hdistinct : NoDup (ID <$> nodes)).

(** Along the parent-to-child links the depth grows. *)
Lemma depth_descendant a b da db :
  tree.acyclic nodes = true ->
  tc (tree.child_of nodes) a b ->
  tree.depth nodes (S (length nodes)) a = Some da ->
  tree.depth nodes (S (length nodes)) b = Some db ->
  (da < db)%nat.
Proof.
  intros Hac Htc. revert da db.
  induction Htc as [a b (n & Hn & <- & <-) | a x b (n & Hn & <- & <-) _ IH];
    intros da db Ha Hb.
  - rewrite (depth_child _ _ _ Hdistinct Hac Hn Ha) in Hb.
    injection Hb as <-. lia.
  - pose proof (depth_child _ _ _ Hdistinct Hac Hn Ha) as Hx.
    specialize (IH _ _ Hx Hb). lia.
Qed.

Lemma ancestors_full fuel id :
  tree.depth nodes fuel id = None -> length (tree.ancestors nodes fuel id) = fuel.
Proof.
  revert id. induction fuel as [|fuel IH]; intros id; simpl; [done |].
  destruct (memory.node_row nodes id) as [n|]; [| done].
  destruct (tree.depth nodes fuel (Pid n)) eqn:Hd; [done |].
  intros _. simpl. by rewrite IH.
Qed.

Lemma ancestors_present fuel id x :
  x ∈ tree.ancestors nodes fuel id -> x ∈ ID <$> nodes.
Proof.
  revert id. induction fuel as [|fuel IH]; intros id; simpl.
  - by intros ?%elem_of_nil.
  - destruct (memory.node_row nodes id) as [n|] eqn:Hrow;
      [| by intros ?%elem_of_nil].
    intros [-> | Hx]%elem_of_cons; [| by eapply IH].
    apply node_row_Some in Hrow as [Hn <-]. by apply list_elem_of_fmap_2.
Qed.

Lemma ancestors_above fuel id x :
  x ∈ tree.ancestors nodes fuel id -> rtc (tree.child_of nodes) x id.
Proof.
  revert id. induction fuel as [|fuel IH]; intros id; simpl.
  - by intros ?%elem_of_nil.
  - destruct (memory.node_row nodes id) as [n|] eqn:Hrow;
      [| by intros ?%elem_of_nil].
    intros [-> | Hx]%elem_of_cons; [apply rtc_refl |].
    apply node_row_Some in Hrow as [Hn Hid].
    eapply rtc_r; [by apply IH |]. by exists n.
Qed.

Lemma ancestors_distinct fuel id :
  (∀ x, ¬ tc (tree.child_of nodes) x x) ->
  NoDup (tree.ancestors nodes fuel id).
Proof.
  intros Hnocycle. revert id.
  induction fuel as [|fuel IH]; intros id; simpl; [apply NoDup_nil_2 |].
  destruct (memory.node_row nodes id) as [n|] eqn:Hrow; [| apply NoDup_nil_2].
  apply NoDup_cons. split; [| apply IH].
  intros Hin%ancestors_above. apply (Hnocycle id).
  apply node_row_Some in Hrow as [Hn Hid].
  eapply tc_rtc_l; [exact Hin |]. apply tc_once. by exists n.
Qed.

(** With distinct IDs the boolean test [tree.acyclic] holds exactly when no
    node is reachable from itself along one or more parent-to-child
    links. *)
Lemma acyclic_iff :
  tree.acyclic nodes = true <-> ∀ x, ¬ tc (tree.child_of nodes) x x.
Proof.
  split.
  - intros Hac x Hcycle.
    destruct (depth_total nodes x Hac) as [d Hd].
    pose proof (depth_descendant x x d d Hac Hcycle Hd Hd). lia.
  - intros Hnocycle. unfold tree.acyclic. apply forallb_forall.
    intros n _. apply bool_decide_eq_true.
    destruct (tree.depth nodes (S (length nodes)) (ID n)) eqn:Hd; [by eexists |].
    apply ancestors_full in Hd.
    assert (Hsub : tree.ancestors nodes (S (length nodes)) (ID n)
                   ⊆+ ID <$> nodes).
    { apply NoDup_submseteq; [by apply ancestors_distinct |].
      intros x. apply ancestors_present. }
    apply submseteq_length in Hsub. rewrite Hd, length_fmap in Hsub. lia.
Qed.

End Acyclic.

(** ** The descendant resolver *)

Lemma getChildrenTreeNodeIds_fetched {DB} (ts : service.treeService DB)
    fuel db nodes nid :
  tree_node.GetAllNoPreload (service.nodeDao ts) db = Ok nodes ->
  service.getChildrenTreeNodeIds ts fuel db nid
  = service.dfs (service.index_nodes nodes).1 (service.index_nodes nodes).2
                fuel nid ∅.
Proof.
  intros Hget. unfold service.getChildrenTreeNodeIds. rewrite Hget.
  by destruct (service.index_nodes nodes).
Qed.

Lemma well_formed_spec nodes :
  tree.well_formed nodes = true ->
  NoDup (ID <$> nodes) ∧ tree.acyclic nodes = true
  ∧ tree.leaves_childless nodes = true.
Proof.
  unfold tree.well_formed, tree.distinct_ids.
  rewrite !andb_true_iff, bool_decide_eq_true. tauto.
Qed.

(** With distinct IDs and acyclic parent links, [length nodes + 2] units of
    fuel are enough from every root. *)
Lemma resolver_returns nodes r fuel :
  NoDup (ID <$> nodes) -> tree.acyclic nodes = true ->
  (length nodes + 2 <= fuel)%nat ->
  is_Some (service.dfs (service.index_nodes nodes).1
                       (service.index_nodes nodes).2 fuel r ∅).
Proof.
  intros Hnd Hac Hfuel.
  destruct (depth_total nodes r Hac) as [d Hd].
  destruct (dfs_terminates nodes Hnd (length nodes + 1) r d ∅ Hac Hd) as [s Hs];
    [lia |].
  exists s. eapply dfs_enough_fuel; [| exact Hs]. lia.
Qed.

(** C1. On a flat node set whose IDs are distinct (a node has the single
    parent its [Pid] names), whose parent links are acyclic and whose leaves
    have no children, [getChildrenTreeNodeIds] returns, for every root ID
    [r], exactly the IDs of the leaves reachable from [r] along the
    parent-to-child links: [r] itself when [r] is a leaf, and never the ID
    of a node that is not a leaf. *)
Theorem getChildrenTreeNodeIds_leaf_set {DB} (ts : service.treeService DB)
    (db : DB) (nodes : list TreeNode) (r : Z) :
  tree_node.GetAllNoPreload (service.nodeDao ts) db = Ok nodes ->
  tree.well_formed nodes = true ->
  ∃ ids : gset Z,
    (∀ fuel, (length nodes + 2 <= fuel)%nat ->
       service.getChildrenTreeNodeIds ts fuel db r = Some ids)
    ∧ (∀ x, x ∈ ids <-> tree.leaf_under nodes r x)
    ∧ (tree.is_leaf nodes r -> r ∈ ids)
    ∧ (∀ n, n ∈ nodes -> IsLeaf n ≠ 1 -> ID n ∉ ids).
Proof.
  intros Hget (Hnd & Hac & Hch)%well_formed_spec.
  destruct (resolver_returns nodes r _ Hnd Hac (le_n _)) as [ids Hids].
  assert (Hspec : ∀ x, x ∈ ids <-> tree.leaf_under nodes r x).
  { intros x. rewrite (dfs_leaves nodes Hnd _ _ _ _ Hch Hids x).
    split; [intros [Hx | Hx]; [by apply not_elem_of_empty in Hx | done] | by right]. }
  exists ids. split; [| split; [done | split]].
  - intros fuel Hfuel. rewrite (getChildrenTreeNodeIds_fetched _ _ _ _ _ Hget).
    by eapply dfs_enough_fuel; [| exact Hids].
  - intros (n & Hn & Hid & Hleaf). apply Hspec.
    split; [by exists n |]. split; [apply rtc_refl | by exists n].
  - intros n Hn Hinner Hin. apply Hspec in Hin as (_ & _ & m & Hm & Hid & Hleaf).
    pose proof (node_row_distinct _ _ Hnd Hn) as Hrn.
    pose proof (node_row_distinct _ _ Hnd Hm) as Hrm.
    rewrite Hid in Hrm. congruence.
Qed.

Lemma getChildrenTreeNodeIds_leaf_set_witness :
  ∃ ids : gset Z,
    (∀ fuel, (length sample.family + 2 <= fuel)%nat ->
       service.getChildrenTreeNodeIds sample.svc fuel
         (sample.db_of sample.family) 1 = Some ids)
    ∧ (∀ x, x ∈ ids <-> tree.leaf_under sample.family 1 x)
    ∧ (tree.is_leaf sample.family 1 -> 1 ∈ ids)
    ∧ (∀ n, n ∈ sample.family -> IsLeaf n ≠ 1 -> ID n ∉ ids).
Proof.
  apply (getChildrenTreeNodeIds_leaf_set sample.svc
           (sample.db_of sample.family) sample.family 1).
  - reflexivity.
  - vm_compute. reflexivity.
Defined.

(** The design's example: from the root the two leaves, from a leaf the
    leaf. *)
Example getChildrenTreeNodeIds_family :
  service.getChildrenTreeNodeIds sample.svc 5 (sample.db_of sample.family) 1
    = Some {[2; 3]}
  ∧ service.getChildrenTreeNodeIds sample.svc 5 (sample.db_of sample.family) 2
    = Some {[2]}.
Proof. split; vm_compute; reflexivity. Qed.

(** C9 as the design words it does not hold: the closure [dfs] keeps no
    record of the nodes it has visited.  On two inner nodes that name each
    other as parent no amount of fuel lets the call return. *)
Lemma getChildrenTreeNodeIds_follows_cycle :
  ¬ ∃ fuel ids,
      service.getChildrenTreeNodeIds sample.svc fuel
        (sample.db_of sample.loop) 1 = Some ids.
Proof.
  intros (fuel & ids & Hret).
  rewrite (getChildrenTreeNodeIds_fetched _ _ _ sample.loop) in Hret by done.
  enough (Hloop : ∀ fuel id idMp, id = 1 ∨ id = 2 ->
            service.dfs (service.index_nodes sample.loop).1
                        (service.index_nodes sample.loop).2 fuel id idMp = None)
    by (rewrite Hloop in Hret; [done | by left]).
  clear. intros fuel.
  induction fuel as [|fuel IH]; intros id idMp Hid; [done |].
  rewrite dfs_unfold, index_children.
  rewrite index_node_distinct
    by (apply (bool_decide_unpack _); vm_compute; exact I).
  destruct Hid as [-> | ->]; simpl; rewrite IH; auto.
Qed.

(** C9, amended.  On every flat node set whose IDs are distinct and whose
    parent links are acyclic the traversal returns from every root:
    [length nodes + 2] nested calls are enough. *)
Theorem getChildrenTreeNodeIds_terminates {DB} (ts : service.treeService DB)
    (db : DB) (nodes : list TreeNode) (r : Z) :
  tree_node.GetAllNoPreload (service.nodeDao ts) db = Ok nodes ->
  tree.distinct_ids nodes = true ->
  tree.acyclic nodes = true ->
  ∃ ids : gset Z,
    ∀ fuel, (length nodes + 2 <= fuel)%nat ->
      service.getChildrenTreeNodeIds ts fuel db r = Some ids.
Proof.
  intros Hget Hnd%bool_decide_eq_true Hac.
  destruct (resolver_returns nodes r _ Hnd Hac (le_n _)) as [ids Hids].
  exists ids. intros fuel Hfuel.
  rewrite (getChildrenTreeNodeIds_fetched _ _ _ _ _ Hget).
  by eapply dfs_enough_fuel; [| exact Hids].
Qed.

Lemma getChildrenTreeNodeIds_terminates_witness :
  ∃ ids : gset Z,
    ∀ fuel, (length sample.family + 2 <= fuel)%nat ->
      service.getChildrenTreeNodeIds sample.svc fuel
        (sample.db_of sample.family) 1 = Some ids.
Proof.
  apply (getChildrenTreeNodeIds_terminates sample.svc
           (sample.db_of sample.family) sample.family 1).
  - reflexivity.
  - vm_compute. reflexivity.
  - vm_compute. reflexivity.
Defined.






(** ** The page window *)

Lemma int_max_value : int_max = 9223372036854775807.
Proof. reflexivity. Qed.

Lemma int_min_value : int_min = -9223372036854775808.
Proof. reflexivity. Qed.

(** Cutting a list into [m] consecutive pieces of [k] items loses and
    repeats nothing, once [m] pieces cover the list. *)
Lemma chunks_concat {A} (k m : nat) (l : list A) :
  (0 < k)%nat -> (length l <= m * k)%nat ->
  concat ((fun i => take k (drop (i * k) l)) <$> seq 0 m) = l.
Proof.
  intros Hk. revert l. induction m as [|m IH]; intros l Hl.
  - destruct l; [done | simpl in Hl; lia].
  - simpl seq. rewrite fmap_cons. simpl concat.
    rewrite <- fmap_S_seq, <- list_fmap_compose.
    rewrite (list_fmap_ext _ (fun i => take k (drop (i * k) (drop k l)))).
    + rewrite IH; [apply take_drop | rewrite length_drop; lia].
    + intros i x _. simpl. by rewrite drop_drop.
Qed.

(** The pages that [page_count] counts start inside the list, and together
    they cover it. *)
Lemma page_count_inside total k page :
  0 < k -> 1 <= page <= tree.page_count total k -> (page - 1) * k < total.
Proof.
  unfold tree.page_count. intros Hk [Hlo Hhi].
  pose proof (Z.mul_div_le (total + k - 1) k Hk). nia.
Qed.

Lemma page_count_covers total k :
  0 < k -> total <= tree.page_count total k * k.
Proof.
  unfold tree.page_count. intros Hk.
  pose proof (Z.mul_succ_div_gt (total + k - 1) k Hk). lia.
Qed.

(** A page that starts inside the list is the [k] items from its offset
    on, fewer at the end of the list. *)
Lemma paginate_window {A} (resources : list A) (page k : Z) :
  0 < k <= int_max -> 8 * len resources <= int_max ->
  1 <= page -> (page - 1) * k < len resources ->
  service.paginate resources page k
  = Return (Ok (take (Z.to_nat k) (drop (Z.to_nat ((page - 1) * k)) resources))).
Proof.
  rewrite int_max_value. intros Hk Hlen Hpage Hoff.
  pose proof (len_nonneg resources) as Hnn.
  assert (Hsub : sub page 1 = page - 1).
  { apply wrap_small. unfold is_int. rewrite int_min_value, int_max_value. nia. }
  assert (Hmul : mul (page - 1) k = (page - 1) * k).
  { apply wrap_small. unfold is_int. rewrite int_min_value, int_max_value. nia. }
  assert (Hadd : add ((page - 1) * k) k = (page - 1) * k + k).
  { apply wrap_small. unfold is_int. rewrite int_min_value, int_max_value.
    destruct (decide (page = 1)) as [-> | Hne]; [lia | nia]. }
  unfold service.paginate. rewrite Hsub, Hmul, Hadd.
  destruct (decide ((page - 1) * k >= len resources)) as [Hge | _]; [lia |].
  assert (Hoff0 : 0 <= (page - 1) * k) by nia.
  unfold slice.
  destruct (decide ((page - 1) * k + k > len resources)) as [Hover | Hfit].
  - rewrite bool_decide_eq_true_2 by lia.
    rewrite !take_ge; [done | |]; rewrite length_drop; unfold len in *; lia.
  - rewrite bool_decide_eq_true_2 by lia.
    do 3 f_equal. lia.
Qed.

(** C8. For every list of filtered resources (a Go slice of pointers, so
    its length times the pointer size is an [int]) and every positive page
    size [k]: each of the pages 1..ceil(total/k) comes back without error,
    the pages put one after the other in order are the filtered list, every
    item once; and whenever the offset the call computes, the [int]
    [(page-1)*size], is at least the length, the page is empty and there is
    no error (for a page from 1 on and a size from 0 on whose product fits
    an [int], that offset is the product itself). *)
Theorem paginate_stable {A} (resources : list A) (k : Z) :
  0 < k <= int_max -> 8 * len resources <= int_max ->
  (∀ page, 1 <= page <= tree.page_count (len resources) k ->
     ∃ items, service.paginate resources page k = Return (Ok items))
  ∧ concat ((fun page => tree.window (service.paginate resources page k))
              <$> seqZ 1 (tree.page_count (len resources) k)) = resources
  ∧ (∀ page size, mul (sub page 1) size >= len resources ->
       service.paginate resources page size = Return (Ok []))
  ∧ (∀ page size, 1 <= page <= int_max -> 0 <= size ->
       (page - 1) * size <= int_max -> (page - 1) * size >= len resources ->
       service.paginate resources page size = Return (Ok [])).
Proof.
  intros Hk Hlen.
  assert (Hpast : ∀ page size, mul (sub page 1) size >= len resources ->
            service.paginate resources page size = Return (Ok [])).
  { intros page size Hoff. unfold service.paginate.
    by destruct (decide (mul (sub page 1) size >= len resources)). }
  split; [| split; [| split; [done |]]]; cycle 2.
  { intros page size Hpage Hsize Hfits Hoff. apply Hpast.
    unfold mul, sub. rewrite int_max_value in *.
    rewrite (wrap_small (page - 1))
      by (unfold is_int; rewrite int_min_value, int_max_value; lia).
    rewrite wrap_small; [done |].
    unfold is_int. rewrite int_min_value, int_max_value. nia. }
  - intros page Hpage. eexists. apply paginate_window; try done; [lia |].
    by apply page_count_inside; [lia |].
  - unfold seqZ. rewrite <- list_fmap_compose.
    rewrite (list_fmap_ext _
               (fun i => take (Z.to_nat k) (drop (i * Z.to_nat k) resources))).
    + apply chunks_concat; [lia |].
      pose proof (page_count_covers (len resources) k ltac:(lia)) as Hcov.
      pose proof (len_nonneg resources). unfold len in *.
      apply Nat2Z.inj_le. rewrite Nat2Z.inj_mul, !Z2Nat.id; nia.
    + intros i x [-> Hi]%lookup_seq. simpl.
      rewrite paginate_window; try done; [| lia |].
      * simpl. do 2 f_equal.
        replace (Z.of_nat i + 1 - 1) with (Z.of_nat i) by lia.
        rewrite Z2Nat.inj_mul, Nat2Z.id; lia.
      * apply page_count_inside; lia.
Qed.

Lemma paginate_stable_witness :
  (∀ page, 1 <= page <= tree.page_count (len [10; 20; 30; 40; 50]) 2 ->
     ∃ items, service.paginate [10; 20; 30; 40; 50] page 2 = Return (Ok items))
  ∧ concat ((fun page => tree.window (service.paginate [10; 20; 30; 40; 50] page 2))
              <$> seqZ 1 (tree.page_count (len [10; 20; 30; 40; 50]) 2))
    = [10; 20; 30; 40; 50]
  ∧ (∀ page size, mul (sub page 1) size >= len [10; 20; 30; 40; 50] ->
       service.paginate [10; 20; 30; 40; 50] page size = Return (Ok []))
  ∧ (∀ page size, 1 <= page <= int_max -> 0 <= size ->
       (page - 1) * size <= int_max ->
       (page - 1) * size >= len [10; 20; 30; 40; 50] ->
       service.paginate [10; 20; 30; 40; 50] page size = Return (Ok [])).
Proof.
  apply (paginate_stable [10; 20; 30; 40; 50] 2).
  - vm_compute. split; [reflexivity | discriminate].
  - vm_compute. discriminate.
Defined.

(** The three pages of five items, two to a page, and the empty page after
    them. *)
Example paginate_five :
  service.paginate [10; 20; 30; 40; 50] 1 2 = Return (Ok [10; 20])
  ∧ service.paginate [10; 20; 30; 40; 50] 2 2 = Return (Ok [30; 40])
  ∧ service.paginate [10; 20; 30; 40; 50] 3 2 = Return (Ok [50])
  ∧ service.paginate [10; 20; 30; 40; 50] 4 2 = Return (Ok []).
Proof. repeat split. Qed.

(** ** Scoped resource aggregation *)

Lemma bound_under_spec ids bindNodes :
  service.bound_under ids bindNodes = true <-> ∃ n, n ∈ bindNodes ∧ ID n ∈ ids.
Proof.
  induction bindNodes as [|n rest IH]; simpl.
  - split; [done | intros (n & Hn & _); by apply elem_of_nil in Hn].
  - destruct (decide (ID n ∈ ids)) as [Hin | Hout].
    + split; [| done]. intros _. exists n. split; [apply list_elem_of_here | done].
    + rewrite IH. split.
      * intros (m & Hm & Hid). exists m. split; [by apply list_elem_of_further | done].
      * intros (m & Hm & Hid). apply elem_of_cons in Hm as [-> | Hm]; [done |].
        by exists m.
Qed.

Lemma bound_under_empty bindNodes : service.bound_under ∅ bindNodes = false.
Proof.
  destruct (service.bound_under ∅ bindNodes) eqn:Hb; [| done].
  apply bound_under_spec in Hb as (n & _ & Hin). by apply not_elem_of_empty in Hin.
Qed.

(** The loop keeps, in the order of the rows, the resources bound under the
    map. *)
Lemma collect_filter {R} (tree : R -> ResourceTree) (bindNodes : R -> list TreeNode)
    ids rows :
  service.collect tree bindNodes ids rows
  = tree <$> filter (fun e => service.bound_under ids (bindNodes e) = true) rows.
Proof.
  unfold service.collect.
  enough (Hgen : ∀ acc,
            foldl (fun resources e =>
                     if service.bound_under ids (bindNodes e)
                     then resources ++ [tree e] else resources) acc rows
            = acc ++ (tree <$> filter
                        (fun e => service.bound_under ids (bindNodes e) = true) rows))
    by apply (Hgen []).
  induction rows as [|e rows IH]; intros acc; simpl; [by rewrite app_nil_r |].
  rewrite IH, filter_cons.
  destruct (service.bound_under ids (bindNodes e)) eqn:Hb.
  - rewrite decide_True by done. by rewrite fmap_cons, <- app_assoc.
  - by rewrite decide_False by done.
Qed.

(** Once the resolver has answered and the ECS rows are fetched, the call
    is the page window of the rows bound under the resolver's set. *)
Lemma GetAllResourcesByType_ecs {DB} (ts : service.treeService DB)
    fuel db nid ids rows page size :
  service.getChildrenTreeNodeIds ts fuel db nid = Some ids ->
  ecs.GetAll (service.ecsDao ts) db = Ok rows ->
  service.GetAllResourcesByType ts fuel db nid "ecs" page size
  = Some (service.paginate
            (ecs_ResourceTree
               <$> filter (fun e => service.bound_under ids (ecs_BindNodes e) = true)
                          rows)
            page size).
Proof.
  intros Hids Hrows. unfold service.GetAllResourcesByType.
  rewrite Hids. simpl. by rewrite Hrows, collect_filter.
Qed.

(** The design's example: E1 is bound to node 2 only; it is listed under
    the root 1 and under node 2, and not under node 3. *)
Example GetAllResourcesByType_family :
  service.GetAllResourcesByType sample.svc 5 sample.db_bound 1 "ecs" 1 10
    = Some (Return (Ok [ecs_ResourceTree sample.E1]))
  ∧ service.GetAllResourcesByType sample.svc 5 sample.db_bound 2 "ecs" 1 10
    = Some (Return (Ok [ecs_ResourceTree sample.E1]))
  ∧ service.GetAllResourcesByType sample.svc 5 sample.db_bound 3 "ecs" 1 10
    = Some (Return (Ok [])).
Proof. repeat split; vm_compute; reflexivity. Qed.

(** When the fetch of the node set fails, [getChildrenTreeNodeIds] logs the
    error and returns the nil map; the aggregation goes on with it, keeps no
    resource and returns an empty page with a nil error. *)
Lemma GetAllResourcesByType_node_fetch_failed {DB} (ts : service.treeService DB)
    fuel db nid rows page size err :
  tree_node.GetAllNoPreload (service.nodeDao ts) db = Err err ->
  ecs.GetAll (service.ecsDao ts) db = Ok rows ->
  0 <= mul (sub page 1) size ->
  service.GetAllResourcesByType ts fuel db nid "ecs" page size
  = Some (Return (Ok [])).
Proof.
  intros Hnodes Hrows Hoff.
  rewrite (GetAllResourcesByType_ecs ts fuel db nid ∅ rows); [| | done].
  - replace (filter _ rows) with (@nil ResourceEcs).
    2:{ clear. induction rows as [|e rows IH]; [done |].
        by rewrite filter_cons, decide_False by (by rewrite bound_under_empty). }
    unfold service.paginate. simpl.
    destruct (decide (mul (sub page 1) size >= len [])) as [|Hlt]; [done |].
    unfold len in Hlt. simpl in Hlt. lia.
  - unfold service.getChildrenTreeNodeIds. by rewrite Hnodes.
Qed.

(** C3.  The claim is that a failure of the node fetch during scoped
    resource aggregation reaches the caller as an error.  The code does
    otherwise: with the node store down and E1 bound to node 2, the call
    for the subtree of node 1 answers an empty page and no error. *)
Theorem GetAllResourcesByType_swallows_node_failure :
  tree_node.GetAllNoPreload (service.nodeDao sample.svc_nodes_down)
    sample.db_bound = Err (store_failure 1)
  ∧ service.GetAllResourcesByType sample.svc_nodes_down 5 sample.db_bound
      1 "ecs" 1 10 = Some (Return (Ok [])).
Proof. split; vm_compute; reflexivity. Qed.

(** ** Node lifecycle guard *)

(** C5 as stated does not hold for every parent: the guard compares with
    [node.Level+2], which wraps around.  Under a parent of level
    [int_max - 1] a request of level 1 is within [parent.Level + 1] and is
    refused as too deep. *)
Lemma CreateTreeNode_level_guard_wraps :
  Level sample.low_child <= Level sample.tall_parent + 1
  ∧ service.CreateTreeNode sample.svc (sample.db_of [sample.tall_parent])
      sample.low_child
    = (Some (errors_New "创建节点失败，节点层级超出限制"),
       sample.db_of [sample.tall_parent]).
Proof. split; [vm_compute; discriminate | vm_compute; reflexivity]. Qed.

(** C5, amended.  For a request that is not a root request, whose parent
    exists and is not a leaf, and whose parent's level is at most
    [int_max - 2] (so that [parent.Level + 2] is an [int]): the call fails
    with the level error, the store untouched, when the new level is
    greater than [parent.Level + 1], and hands every level up to and
    including [parent.Level + 1] to the store's [Create]. *)
Theorem CreateTreeNode_level_guard {DB} (ts : service.treeService DB)
    (db : DB) (obj parent : TreeNode) :
  ¬ (Pid obj = 0 ∧ Level obj = 1) ->
  tree_node.GetByID (service.nodeDao ts) db (Pid obj) = Ok (Some parent) ->
  IsLeaf parent ≠ 1 ->
  int_min <= Level parent <= int_max - 2 ->
  (Level obj > Level parent + 1 ->
     service.CreateTreeNode ts db obj
     = (Some (errors_New "创建节点失败，节点层级超出限制"), db))
  ∧ (Level obj <= Level parent + 1 ->
     service.CreateTreeNode ts db obj
     = tree_node.Create (service.nodeDao ts) db obj).
Proof.
  intros Hnonroot Hparent Hinner Hrange.
  assert (Hadd : add (Level parent) 2 = Level parent + 2).
  { apply wrap_small. unfold is_int. lia. }
  unfold service.CreateTreeNode.
  rewrite decide_False by done. rewrite Hparent, Hadd.
  split; intros Hlevel.
  - by rewrite decide_True by lia.
  - rewrite decide_False by lia. by rewrite decide_False by done.
Qed.

Lemma CreateTreeNode_level_guard_witness :
  (Level (sample.node 4 1 3 0) > Level (sample.node 1 0 1 0) + 1 ->
     service.CreateTreeNode sample.svc (sample.db_of sample.family)
       (sample.node 4 1 3 0)
     = (Some (errors_New "创建节点失败，节点层级超出限制"),
        sample.db_of sample.family))
  ∧ (Level (sample.node 4 1 3 0) <= Level (sample.node 1 0 1 0) + 1 ->
     service.CreateTreeNode sample.svc (sample.db_of sample.family)
       (sample.node 4 1 3 0)
     = tree_node.Create (service.nodeDao sample.svc)
         (sample.db_of sample.family) (sample.node 4 1 3 0)).
Proof.
  apply (CreateTreeNode_level_guard sample.svc (sample.db_of sample.family)
           (sample.node 4 1 3 0) (sample.node 1 0 1 0)).
  - simpl. lia.
  - reflexivity.
  - simpl. lia.
  - vm_compute. split; discriminate.
Defined.

(** A level-2 and a level-1 child under the level-1 root are created, a
    level-3 child is refused. *)
Example CreateTreeNode_levels :
  (service.CreateTreeNode sample.svc (sample.db_of sample.family)
     (sample.node 4 1 2 0)).1 = None
  ∧ (service.CreateTreeNode sample.svc (sample.db_of sample.family)
       (sample.node 4 1 1 0)).1 = None
  ∧ (service.CreateTreeNode sample.svc (sample.db_of sample.family)
       (sample.node 4 1 3 0)).1
    = Some (errors_New "创建节点失败，节点层级超出限制").
Proof. repeat split. Qed.

Lemma has_children_spec (rows : list TreeNode) id :
  existsb (fun n => bool_decide (Pid n = id)) rows = true
  <-> ∃ c, c ∈ rows ∧ Pid c = id.
Proof.
  rewrite existsb_exists. split.
  - intros (c & Hc & Hpid). exists c.
    split; [by apply list_elem_of_In | by apply bool_decide_eq_true in Hpid].
  - intros (c & Hc & Hpid). exists c.
    split; [by apply list_elem_of_In | by apply bool_decide_eq_true].
Qed.

(** C6.  Against the node store's interface: when the store answers the
    node for the ID and answers that it has children, the call fails with
    the has-children error and the state is the one before the call; when
    the store answers the node and that it has no children, the store's
    [Delete] is called and, when it succeeds, the call succeeds in the
    state [Delete] leaves; when the store has no node for the ID, the call
    fails in the state before the call, with the service's not-found error
    if the store answers [(nil, nil)] and with the store's own error if it
    answers an error. *)
Theorem DeleteTreeNode_guard {DB} (ts : service.treeService DB)
    (ErrorTreeNodeHasChildren : string) (db : DB) (id : Z) :
  (∀ node,
     tree_node.GetByID (service.nodeDao ts) db id = Ok (Some node) ->
     tree_node.HasChildren (service.nodeDao ts) db id = Ok true ->
     service.DeleteTreeNode ts ErrorTreeNodeHasChildren db id
     = (Some (errors_New ErrorTreeNodeHasChildren), db))
  ∧ (∀ node db',
       tree_node.GetByID (service.nodeDao ts) db id = Ok (Some node) ->
       tree_node.HasChildren (service.nodeDao ts) db id = Ok false ->
       tree_node.Delete (service.nodeDao ts) db id = (None, db') ->
       service.DeleteTreeNode ts ErrorTreeNodeHasChildren db id = (None, db'))
  ∧ (tree_node.GetByID (service.nodeDao ts) db id = Ok None ->
     service.DeleteTreeNode ts ErrorTreeNodeHasChildren db id
     = (Some (errors_New "节点不存在"), db))
  ∧ (∀ err,
       tree_node.GetByID (service.nodeDao ts) db id = Err err ->
       service.DeleteTreeNode ts ErrorTreeNodeHasChildren db id = (Some err, db)).
Proof.
  unfold service.DeleteTreeNode. repeat split.
  - intros node Hnode Hchildren. by rewrite Hnode, Hchildren.
  - intros node db' Hnode Hchildren Hdelete. by rewrite Hnode, Hchildren, Hdelete.
  - intros Hnode. by rewrite Hnode.
  - intros err Hnode. by rewrite Hnode.
Qed.

Lemma DeleteTreeNode_guard_witness :
  service.DeleteTreeNode sample.svc "has children" (sample.db_of sample.family) 1
  = (Some (errors_New "has children"), sample.db_of sample.family)
  ∧ service.DeleteTreeNode sample.svc "has children" (sample.db_of sample.family) 2
    = (None, sample.db_of [sample.node 1 0 1 0; sample.node 3 1 2 1])
  ∧ service.DeleteTreeNode sample.svc "has children" (sample.db_of sample.family) 7
    = (Some (errors_New "节点不存在"), sample.db_of sample.family)
  ∧ service.DeleteTreeNode
      (memory.treeService (Some (store_failure 404)) ErrResourceNotFound)
      "has children" (sample.db_of sample.family) 7
    = (Some (store_failure 404), sample.db_of sample.family).
Proof.
  split; [| split; [| split]].
  - apply (proj1 (DeleteTreeNode_guard sample.svc "has children"
                    (sample.db_of sample.family) 1) (sample.node 1 0 1 0));
      reflexivity.
  - apply (proj1 (proj2 (DeleteTreeNode_guard sample.svc "has children"
                           (sample.db_of sample.family) 2))
             (sample.node 2 1 2 1));
      reflexivity.
  - apply (proj1 (proj2 (proj2 (DeleteTreeNode_guard sample.svc "has children"
                                  (sample.db_of sample.family) 7))));
      reflexivity.
  - apply (proj2 (proj2 (proj2 (DeleteTreeNode_guard
             (memory.treeService (Some (store_failure 404)) ErrResourceNotFound)
             "has children" (sample.db_of sample.family) 7))));
      reflexivity.
Defined.

(** Over the node store in memory, whatever it answers for a missing row:
    deleting a node that has a row and a child fails with the has-children
    error and leaves every table as it was; deleting a node that has a row
    and no child removes the rows of that ID and no other row; deleting an
    ID without a row fails and leaves every table as it was. *)
Lemma DeleteTreeNode_in_memory (missing_node : option error) (missing_ecs : error)
    (ErrorTreeNodeHasChildren : string) (db : memory.DB) (id : Z) :
  (tree.is_node (memory.nodes db) id ->
   (∃ c, c ∈ memory.nodes db ∧ Pid c = id) ->
   service.DeleteTreeNode (memory.treeService missing_node missing_ecs)
     ErrorTreeNodeHasChildren db id
   = (Some (errors_New ErrorTreeNodeHasChildren), db))
  ∧ (tree.is_node (memory.nodes db) id ->
     ¬ (∃ c, c ∈ memory.nodes db ∧ Pid c = id) ->
     ∃ db',
       service.DeleteTreeNode (memory.treeService missing_node missing_ecs)
         ErrorTreeNodeHasChildren db id = (None, db')
       ∧ ¬ tree.is_node (memory.nodes db') id
       ∧ memory.nodes db' = filter (fun n => ID n ≠ id) (memory.nodes db)
       ∧ memory.ecs_rows db' = memory.ecs_rows db
       ∧ memory.elb_rows db' = memory.elb_rows db
       ∧ memory.rds_rows db' = memory.rds_rows db)
  ∧ (¬ tree.is_node (memory.nodes db) id ->
     ∃ err,
       service.DeleteTreeNode (memory.treeService missing_node missing_ecs)
         ErrorTreeNodeHasChildren db id = (Some err, db)
       ∧ (err = errors_New "节点不存在" ∨ missing_node = Some err)).
Proof.
  unfold service.DeleteTreeNode. simpl.
  split; [| split].
  - intros [n Hrow]%node_row_is_node Hchild%has_children_spec.
    by rewrite Hrow, Hchild.
  - intros [n Hrow]%node_row_is_node Hchild.
    rewrite Hrow.
    destruct (existsb _ (memory.nodes db)) eqn:Hex;
      [by apply has_children_spec in Hex |].
    eexists. split; [done |]. split; [| done]. simpl.
    intros (m & Hm & Hid). by apply list_elem_of_filter in Hm as [? _].
  - intros Habsent.
    destruct (memory.node_row (memory.nodes db) id) as [n|] eqn:Hrow.
    { destruct Habsent. apply node_row_is_node. by eexists. }
    destruct missing_node as [err|]; eexists; (split; [done |]); auto.
Qed.

(** ** Resource delete *)

Lemma errors_Is_unfold err target :
  errors_Is err target
  = if decide (err = target) then true
    else match err with
         | fmt_Errorf _ inner => errors_Is inner target
         | _ => false
         end.
Proof. by destruct err. Qed.

Lemma errors_Is_refl err : errors_Is err err = true.
Proof. by rewrite errors_Is_unfold, decide_True. Qed.

Lemma errors_Is_wrapped msg err target :
  errors_Is err target = true -> errors_Is (fmt_Errorf msg err) target = true.
Proof.
  intros His. rewrite errors_Is_unfold.
  by destruct (decide (fmt_Errorf msg err = target)).
Qed.

Lemma ecs_row_Some rows id r :
  memory.ecs_row rows id = Some r -> r ∈ rows ∧ rt_ID (ecs_ResourceTree r) = id.
Proof.
  unfold memory.ecs_row. intros Hf. apply find_some in Hf as [Hin Hid].
  split; [by apply list_elem_of_In | by apply bool_decide_eq_true in Hid].
Qed.

Lemma ecs_row_deleted rows id :
  memory.ecs_row (filter (fun r => rt_ID (ecs_ResourceTree r) ≠ id) rows) id = None.
Proof.
  destruct (memory.ecs_row _ id) as [r|] eqn:Hrow; [| done].
  apply ecs_row_Some in Hrow as [Hin Hid].
  by apply list_elem_of_filter in Hin as [? _].
Qed.

(** C7.  Against the ECS store's interface: when the store answers a
    resource that has a bound node, the call fails with [ErrResourceBound]
    and the state is the one before the call, so the resource is fetched
    afterwards as before; when it answers a resource without a bound node,
    the store's [Delete] is called and, when it succeeds, the call succeeds
    in the state [Delete] leaves; when the store has no resource for the ID
    and answers its error, the call fails in the state before the call with
    an error that wraps the store's, under the not-found message when the
    store's error is [ErrResourceNotFound]. *)
Theorem DeleteEcsResource_guard {DB} (ts : service.treeService DB)
    (db : DB) (id : Z) :
  (∀ resource,
     ecs.GetByID (service.ecsDao ts) db id = Ok (Some resource) ->
     ecs_BindNodes resource ≠ [] ->
     service.DeleteEcsResource ts db id = Return (Some ErrResourceBound, db))
  ∧ (∀ resource db',
       ecs.GetByID (service.ecsDao ts) db id = Ok (Some resource) ->
       ecs_BindNodes resource = [] ->
       ecs.Delete (service.ecsDao ts) db id = (None, db') ->
       service.DeleteEcsResource ts db id = Return (None, db'))
  ∧ (∀ err,
       ecs.GetByID (service.ecsDao ts) db id = Err err ->
       ∃ failure,
         service.DeleteEcsResource ts db id = Return (Some failure, db)
         ∧ errors_Is failure err = true
         ∧ (errors_Is err ErrResourceNotFound = true ->
            failure = fmt_Errorf "资源未找到" err)).
Proof.
  unfold service.DeleteEcsResource. repeat split.
  - intros resource Hrow Hbound. rewrite Hrow.
    destruct (decide (len (ecs_BindNodes resource) > 0)) as [| Hlen]; [done |].
    destruct (ecs_BindNodes resource); [done |].
    unfold len in Hlen. simpl in Hlen. lia.
  - intros resource db' Hrow Hfree Hdelete. rewrite Hrow, Hfree.
    destruct (decide (len [] > 0)) as [Hlen |];
      [unfold len in Hlen; simpl in Hlen; lia |].
    by rewrite Hdelete.
  - intros err Hrow. rewrite Hrow.
    destruct (errors_Is err ErrResourceNotFound) eqn:His.
    + eexists. split; [done |].
      split; [apply errors_Is_wrapped, errors_Is_refl | done].
    + eexists. split; [done |].
      split; [apply errors_Is_wrapped, errors_Is_refl | done].
Qed.

Lemma DeleteEcsResource_guard_witness :
  service.DeleteEcsResource sample.svc sample.db_bound 1
  = Return (Some ErrResourceBound, sample.db_bound)
  ∧ service.DeleteEcsResource sample.svc sample.db_bound 2
    = Return (None, memory.mkDB sample.family [sample.E1] [] [])
  ∧ (∃ failure,
       service.DeleteEcsResource sample.svc sample.db_bound 9
       = Return (Some failure, sample.db_bound)
       ∧ errors_Is failure ErrResourceNotFound = true
       ∧ (errors_Is ErrResourceNotFound ErrResourceNotFound = true ->
          failure = fmt_Errorf "资源未找到" ErrResourceNotFound)).
Proof.
  split; [| split].
  - apply (proj1 (DeleteEcsResource_guard sample.svc sample.db_bound 1) sample.E1);
      [reflexivity | simpl; discriminate].
  - apply (proj1 (proj2 (DeleteEcsResource_guard sample.svc sample.db_bound 2))
             sample.E2);
      reflexivity.
  - apply (proj2 (proj2 (DeleteEcsResource_guard sample.svc sample.db_bound 9))).
    reflexivity.
Defined.

(** Over the ECS store in memory: a bound resource is refused and still
    fetched afterwards; an unbound one is deleted, its row gone and the
    rows of other IDs and the nodes kept; an ID without a row fails with an
    error that wraps the store's. *)
Lemma DeleteEcsResource_in_memory (missing_node : option error)
    (missing_ecs : error) (db : memory.DB) (id : Z) :
  (∀ resource,
     memory.ecs_row (memory.ecs_rows db) id = Some resource ->
     ecs_BindNodes resource ≠ [] ->
     service.DeleteEcsResource (memory.treeService missing_node missing_ecs) db id
     = Return (Some ErrResourceBound, db)
     ∧ ecs.GetByID (memory.ecsDao missing_ecs) db id = Ok (Some resource))
  ∧ (∀ resource,
       memory.ecs_row (memory.ecs_rows db) id = Some resource ->
       ecs_BindNodes resource = [] ->
       ∃ db',
         service.DeleteEcsResource (memory.treeService missing_node missing_ecs)
           db id = Return (None, db')
         ∧ ecs.GetByID (memory.ecsDao missing_ecs) db' id = Err missing_ecs
         ∧ memory.ecs_rows db'
           = filter (fun r => rt_ID (ecs_ResourceTree r) ≠ id) (memory.ecs_rows db)
         ∧ memory.nodes db' = memory.nodes db)
  ∧ (memory.ecs_row (memory.ecs_rows db) id = None ->
     ∃ err,
       service.DeleteEcsResource (memory.treeService missing_node missing_ecs)
         db id = Return (Some err, db)
       ∧ errors_Is err missing_ecs = true).
Proof.
  unfold service.DeleteEcsResource. simpl.
  split; [| split].
  - intros resource Hrow Hbound. rewrite Hrow. split; [| done].
    destruct (decide (len (ecs_BindNodes resource) > 0)) as [| Hlen]; [done |].
    destruct (ecs_BindNodes resource); [done |].
    unfold len in Hlen. simpl in Hlen. lia.
  - intros resource Hrow Hfree. rewrite Hrow, Hfree.
    destruct (decide (len [] > 0)) as [Hlen |];
      [unfold len in Hlen; simpl in Hlen; lia |].
    eexists. split; [done |]. simpl. by rewrite ecs_row_deleted.
  - intros Hrow. rewrite Hrow.
    destruct (errors_Is missing_ecs ErrResourceNotFound);
      (eexists; split; [done |]; apply errors_Is_wrapped, errors_Is_refl).
Qed.

(** ** Leaf listing *)

Lemma keep_bound_filter nodes :
  foldl service.keep_bound [] nodes = filter (fun n => BindEcs n ≠ []) nodes.
Proof.
  enough (Hgen : ∀ acc, foldl service.keep_bound acc nodes
                        = acc ++ filter (fun n => BindEcs n ≠ []) nodes)
    by apply (Hgen []).
  induction nodes as [|n nodes IH]; intros acc; simpl; [by rewrite app_nil_r |].
  rewrite IH, filter_cons. unfold service.keep_bound.
  destruct (decide (len (BindEcs n) = 0)) as [Hnone | Hsome];
    destruct (decide (BindEcs n ≠ [])) as [Hbound | Hfree]; try done.
  - destruct (BindEcs n); [done | unfold len in Hnone; simpl in Hnone; lia].
  - by rewrite <- app_assoc.
  - destruct (BindEcs n); [done | by destruct Hfree].
Qed.

(** C10.  [ListLeafTreeNodes] returns, in the order of the store, exactly
    the nodes whose [BindEcs] list is not empty.  Neither [IsLeaf] nor
    [Children] is read: a node that is not a leaf and has a bound ECS
    resource is returned, a leaf without one is left out, and rewriting
    the nodes in any way that keeps [BindEcs] rewrites the result the same
    way. *)
Theorem ListLeafTreeNodes_bound_nodes {DB} (ts : service.treeService DB)
    (db : DB) (nodes : list TreeNode) :
  tree_node.GetAll (service.nodeDao ts) db = Ok nodes ->
  ∃ leafNodes,
    service.ListLeafTreeNodes ts db = Ok leafNodes
    ∧ leafNodes = filter (fun n => BindEcs n ≠ []) nodes
    ∧ (∀ n, n ∈ leafNodes <-> n ∈ nodes ∧ BindEcs n ≠ [])
    ∧ (∀ n, n ∈ nodes -> IsLeaf n ≠ 1 -> BindEcs n ≠ [] -> n ∈ leafNodes)
    ∧ (∀ n, IsLeaf n = 1 -> BindEcs n = [] -> n ∉ leafNodes)
    ∧ (∀ (touch : TreeNode -> TreeNode) db',
         (∀ n, BindEcs (touch n) = BindEcs n) ->
         tree_node.GetAll (service.nodeDao ts) db' = Ok (touch <$> nodes) ->
         service.ListLeafTreeNodes ts db' = Ok (touch <$> leafNodes)).
Proof.
  intros Hget. exists (filter (fun n => BindEcs n ≠ []) nodes).
  split; [| split; [done | split; [| split; [| split]]]].
  - unfold service.ListLeafTreeNodes. by rewrite Hget, keep_bound_filter.
  - intros n. rewrite list_elem_of_filter. tauto.
  - intros n Hin _ Hbound. by apply list_elem_of_filter.
  - intros n _ Hfree [Hbound _]%list_elem_of_filter. done.
  - intros touch db' Hkeep Hget'. unfold service.ListLeafTreeNodes.
    rewrite Hget', keep_bound_filter. f_equal.
    clear -Hkeep. induction nodes as [|n l IH]; [done |].
    rewrite fmap_cons, !filter_cons, Hkeep.
    destruct (decide (BindEcs n ≠ [])); [by rewrite fmap_cons, IH | done].
Qed.

Lemma ListLeafTreeNodes_bound_nodes_witness :
  ∃ leafNodes,
    service.ListLeafTreeNodes sample.svc
      (sample.db_of [sample.bound_inner; sample.bare_leaf]) = Ok leafNodes
    ∧ leafNodes
      = filter (fun n => BindEcs n ≠ []) [sample.bound_inner; sample.bare_leaf]
    ∧ (∀ n, n ∈ leafNodes
            <-> n ∈ [sample.bound_inner; sample.bare_leaf] ∧ BindEcs n ≠ [])
    ∧ (∀ n, n ∈ [sample.bound_inner; sample.bare_leaf] ->
            IsLeaf n ≠ 1 -> BindEcs n ≠ [] -> n ∈ leafNodes)
    ∧ (∀ n, IsLeaf n = 1 -> BindEcs n = [] -> n ∉ leafNodes)
    ∧ (∀ (touch : TreeNode -> TreeNode) db',
         (∀ n, BindEcs (touch n) = BindEcs n) ->
         tree_node.GetAll (service.nodeDao sample.svc) db'
         = Ok (touch <$> [sample.bound_inner; sample.bare_leaf]) ->
         service.ListLeafTreeNodes sample.svc db' = Ok (touch <$> leafNodes)).
Proof.
  apply (ListLeafTreeNodes_bound_nodes sample.svc
           (sample.db_of [sample.bound_inner; sample.bare_leaf])).
  reflexivity.
Defined.

(** The inner node with a bound ECS row is listed, the bare leaf is not. *)
Example ListLeafTreeNodes_sample :
  service.ListLeafTreeNodes sample.svc
    (sample.db_of [sample.bound_inner; sample.bare_leaf])
  = Ok [sample.bound_inner].
Proof. reflexivity. Qed.

(** ** The tree builder *)

Lemma set_Key_links k p node (heap : list TreeNode) :
  heap !! p = Some node ->
  ID <$> <[p := set_Key k node]> heap = ID <$> heap
  ∧ Pid <$> <[p := set_Key k node]> heap = Pid <$> heap
  ∧ Children <$> <[p := set_Key k node]> heap = Children <$> heap.
Proof.
  intros Hp. rewrite !list_fmap_insert. simpl.
  repeat split; apply list_insert_id; by rewrite list_lookup_fmap, Hp.
Qed.

(** One round of the first loop: the links of the nodes stay, a root is
    appended to the top nodes, another node to the list filed under its
    parent's ID. *)
Lemma classify_step p heap topNodes childrenMap heap' topNodes' childrenMap' :
  service.classify (heap, topNodes, childrenMap) p
  = (heap', topNodes', childrenMap') ->
  ID <$> heap' = ID <$> heap
  ∧ Pid <$> heap' = Pid <$> heap
  ∧ Children <$> heap' = Children <$> heap
  ∧ topNodes' = topNodes ++ filter (fun p => (Pid <$> heap) !! p = Some 0) [p]
  ∧ ∀ k, childrenMap' !!! k
         = (childrenMap !!! k)
           ++ filter (fun p => k ≠ 0 ∧ (Pid <$> heap) !! p = Some k) [p].
Proof.
  unfold service.classify. cbv beta iota.
  destruct (heap !! p) as [node|] eqn:Hp.
  - destruct (set_Key_links (Itoa (ID node)) p node heap Hp) as (HI & HP & HC).
    assert (Hpid : (Pid <$> heap) !! p = Some (Pid node))
      by (by rewrite list_lookup_fmap, Hp).
    simpl. destruct (decide (Pid node = 0)) as [Hroot | Hchild].
    + intros [= <- <- <-]. repeat split; try done.
      * rewrite filter_cons, decide_True by congruence. by rewrite filter_nil.
      * intros k. rewrite filter_cons, decide_False, filter_nil, app_nil_r;
          [done |]. intros [Hk Heq]. congruence.
    + intros [= <- <- <-]. repeat split; try done.
      * rewrite filter_cons, decide_False, filter_nil, app_nil_r;
          [done | congruence].
      * intros k. rewrite filter_cons, filter_nil.
        destruct (decide (Pid node = k)) as [<- | Hne].
        -- by rewrite lookup_total_insert_eq, decide_True.
        -- rewrite lookup_total_insert_ne, decide_False, app_nil_r; [done | | done].
           intros [_ Heq]. congruence.
  - intros [= <- <- <-].
    assert (Hpid : (Pid <$> heap) !! p = None)
      by (by rewrite list_lookup_fmap, Hp).
    repeat split; try done.
    + rewrite filter_cons, decide_False, filter_nil, app_nil_r;
        [done | congruence].
    + intros k. rewrite filter_cons, decide_False, filter_nil, app_nil_r;
        [done |]. intros [_ Heq]. congruence.
Qed.

(** The first loop over the pointers [ps]. *)
Lemma classify_fold ps heap topNodes childrenMap heap' topNodes' childrenMap' :
  foldl service.classify (heap, topNodes, childrenMap) ps
  = (heap', topNodes', childrenMap') ->
  ID <$> heap' = ID <$> heap
  ∧ Pid <$> heap' = Pid <$> heap
  ∧ Children <$> heap' = Children <$> heap
  ∧ topNodes' = topNodes ++ filter (fun p => (Pid <$> heap) !! p = Some 0) ps
  ∧ ∀ k, childrenMap' !!! k
         = (childrenMap !!! k)
           ++ filter (fun p => k ≠ 0 ∧ (Pid <$> heap) !! p = Some k) ps.
Proof.
  revert heap topNodes childrenMap.
  induction ps as [|p ps IH]; intros heap top cm.
  - simpl. intros [= <- <- <-]. rewrite app_nil_r.
    repeat split; try done. intros k. by rewrite filter_nil, app_nil_r.
  - change (foldl service.classify (heap, top, cm) (p :: ps))
      with (foldl service.classify (service.classify (heap, top, cm) p) ps).
    change (p :: ps) with ([p] ++ ps).
    destruct (service.classify (heap, top, cm) p) as [[heap1 top1] cm1] eqn:Hstep.
    apply classify_step in Hstep as (HI & HP & HC & -> & Hcm).
    intros (HI' & HP' & HC' & -> & Hcm')%IH.
    rewrite HI', HP', HC', HI, HP, HC. repeat split; try done.
    + by rewrite filter_app, app_assoc.
    + intros k. by rewrite Hcm', Hcm, HP, filter_app, app_assoc.
Qed.

Section Attach.
Context (childrenMap : gmap Z (list ptr)).



End Attach.

(** *** Counting places *)




Lemma parents_present_spec nodes n :
  tree.parents_present nodes = true -> n ∈ nodes ->
  Pid n = 0 ∨ Pid n ∈ ID <$> nodes.
Proof.
  unfold tree.parents_present. rewrite forallb_forall.
  intros Hall Hn%list_elem_of_In. apply Hall in Hn.
  apply orb_true_iff in Hn as [Hroot | Hparent].
  - left. by apply bool_decide_eq_true in Hroot.
  - right. apply existsb_exists in Hparent as (m & Hm & Hid).
    apply bool_decide_eq_true in Hid. rewrite <- Hid.
    by apply list_elem_of_fmap_2, list_elem_of_In.
Qed.






(** The design's example: the root list is the node of ID 1, and its
    children are the nodes of IDs 2 and 3, in that order. *)
Example ListTreeNodes_family :
  ∃ topNodes heap,
    service.ListTreeNodes sample.svc (sample.db_of sample.family)
    = Ok (topNodes, heap)
    ∧ topNodes = [0%nat]
    ∧ ID <$> heap = [1; 2; 3]
    ∧ Children <$> heap = [[1%nat; 2%nat]; []; []]
    ∧ Key <$> heap = ["1"; "2"; "3"]%string.
Proof. eexists _, _. split; [vm_compute; reflexivity |]. repeat split. Qed.

(** * Further properties *)

(** ** The resolver on arbitrary node sets *)

Lemma index_node_member_from nodes nodeMap childrenMap id n :
  (foldl service.index_node (nodeMap, childrenMap) nodes).1 !! id = Some n ->
  (n ∈ nodes ∧ ID n = id) ∨ nodeMap !! id = Some n.
Proof.
  revert nodeMap childrenMap.
  induction nodes as [|a l IH]; intros nm cm; simpl; [by right |].
  intros [[Hin Hid] | Hnm]%IH.
  - left. split; [by apply list_elem_of_further | done].
  - destruct (decide (ID a = id)) as [Heq | Hne].
    + rewrite Heq, lookup_insert_eq in Hnm. injection Hnm as <-.
      left. split; [apply list_elem_of_here | done].
    + rewrite lookup_insert_ne in Hnm by done. by right.
Qed.

Lemma index_node_member nodes id n :
  (service.index_nodes nodes).1 !! id = Some n -> n ∈ nodes ∧ ID n = id.
Proof.
  intros [? | Hempty]%index_node_member_from; [done |].
  by rewrite lookup_empty in Hempty.
Qed.

Lemma for_range_within {A} (P : A -> Z -> Prop)
    (body : A -> gset Z -> option (gset Z)) xs acc s :
  (∀ c a t, c ∈ xs -> body c a = Some t -> ∀ x, x ∈ t -> x ∈ a ∨ P c x) ->
  for_range body xs acc = Some s ->
  ∀ x, x ∈ s -> x ∈ acc ∨ ∃ c, c ∈ xs ∧ P c x.
Proof.
  revert acc. induction xs as [|c xs IH]; intros acc Hbody; simpl.
  - intros [= <-] x ?. by left.
  - destruct (body c acc) as [t|] eqn:Ht; [| done]. intros Hs x Hx.
    destruct (IH t (fun c' a t' Hc' => Hbody c' a t' (list_elem_of_further _ _ _ Hc'))
                Hs x Hx) as [Hxt | (c' & Hc' & HP)].
    + destruct (Hbody c acc t (list_elem_of_here _ _) Ht x Hxt) as [? | ?];
        [by left |].
      right. exists c. split; [apply list_elem_of_here | done].
    + right. exists c'. split; [by apply list_elem_of_further | done].
Qed.

Lemma dfs_within nodes fuel id idMp s :
  service.dfs (service.index_nodes nodes).1 (service.index_nodes nodes).2
              fuel id idMp = Some s ->
  ∀ x, x ∈ s -> x ∈ idMp ∨ tree.leaf_under nodes id x.
Proof.
  revert id idMp s.
  induction fuel as [|fuel IH]; intros id acc s; [done |].
  rewrite dfs_unfold.
  destruct ((service.index_nodes nodes).1 !! id) as [node|] eqn:Hnode;
    [| intros [= <-] x ?; by left].
  apply index_node_member in Hnode as [Hin Hid].
  destruct (decide (IsLeaf node = 1)) as [Hleaf | Hinner].
  - intros [= <-] x [->%elem_of_singleton | Hx]%elem_of_union; [| by left].
    right. rewrite Hid. split; [by exists node |].
    split; [apply rtc_refl | by exists node].
  - rewrite index_children. intros Hs x Hx.
    destruct (for_range_within (fun c x => tree.leaf_under nodes (ID c) x)
                _ _ _ _ (fun c a t _ Ht => IH (ID c) a t Ht) Hs x Hx)
      as [? | (c & Hc & _ & Hrtc & Hleaf)]; [by left |].
    apply list_elem_of_filter in Hc as [Hpid Hc].
    right. split; [by exists node |]. split; [| done].
    eapply rtc_l; [| exact Hrtc]. by exists c.
Qed.

(** X1.  On every flat node set, with or without distinct IDs, acyclic
    links or childless leaves: whenever [getChildrenTreeNodeIds] returns,
    every ID in its result is the ID of a node flagged as leaf that is
    reachable from the root ID along the parent-to-child links, and the
    root ID is the ID of a node.  It never returns the ID of something
    outside the subtree or of a node that only non-leaf rows carry. *)
Theorem getChildrenTreeNodeIds_within {DB} (ts : service.treeService DB)
    (db : DB) (nodes : list TreeNode) (r : Z) (fuel : nat) (ids : gset Z) :
  tree_node.GetAllNoPreload (service.nodeDao ts) db = Ok nodes ->
  service.getChildrenTreeNodeIds ts fuel db r = Some ids ->
  ∀ x, x ∈ ids -> tree.leaf_under nodes r x.
Proof.
  intros Hget Hids x Hx.
  rewrite (getChildrenTreeNodeIds_fetched _ _ _ _ _ Hget) in Hids.
  destruct (dfs_within _ _ _ _ _ Hids x Hx) as [Hempty | ?]; [| done].
  by apply not_elem_of_empty in Hempty.
Qed.

Lemma getChildrenTreeNodeIds_within_witness :
  tree.leaf_under sample_more.crooked 1 2.
Proof.
  apply (getChildrenTreeNodeIds_within sample.svc
           (sample.db_of sample_more.crooked) sample_more.crooked 1 3 {[2]}).
  - reflexivity.
  - vm_compute. reflexivity.
  - by apply elem_of_singleton.
Defined.

(** ** Subtrees and what is listed under them *)

Lemma leaf_under_ancestor nodes r c x :
  tree.is_node nodes r -> rtc (tree.child_of nodes) r c ->
  tree.leaf_under nodes c x -> tree.leaf_under nodes r x.
Proof.
  intros Hr Hrc (_ & Hcx & Hleaf). split; [done |].
  split; [by etrans | done].
Qed.



(** ** What scoped aggregation lists *)

(** The resolver's set on a well-formed node set, by its contents. *)
Lemma resolver_set nodes nid :
  tree.well_formed nodes = true ->
  ∃ ids : gset Z,
    (∀ x, x ∈ ids <-> tree.leaf_under nodes nid x)
    ∧ ∀ fuel, (length nodes + 2 <= fuel)%nat ->
        service.dfs (service.index_nodes nodes).1 (service.index_nodes nodes).2
                    fuel nid ∅ = Some ids.
Proof.
  intros (Hnd & Hac & Hch)%well_formed_spec.
  destruct (resolver_returns nodes nid _ Hnd Hac (le_n _)) as [ids Hids].
  exists ids. split.
  - intros x. rewrite (dfs_leaves nodes Hnd _ _ _ _ Hch Hids x).
    split; [intros [Hx | Hx]; [by apply not_elem_of_empty in Hx | done] | by right].
  - intros fuel Hfuel. by eapply dfs_enough_fuel; [| exact Hids].
Qed.

(** The rows the loop keeps, by what they are bound to. *)
Lemma collect_scope {R} (tree : R -> ResourceTree) (bindNodes : R -> list TreeNode)
    (ids : gset Z) (P : Z -> Prop) (rows : list R) :
  (∀ x, x ∈ ids <-> P x) ->
  ∃ kept,
    service.collect tree bindNodes ids rows = tree <$> kept
    ∧ kept `sublist_of` rows
    ∧ ∀ e, e ∈ kept <-> e ∈ rows ∧ ∃ n, n ∈ bindNodes e ∧ P (ID n).
Proof.
  intros Hids.
  exists (filter (fun e => service.bound_under ids (bindNodes e) = true) rows).
  split; [apply collect_filter |]. split; [apply sublist_filter |].
  intros e. rewrite list_elem_of_filter, bound_under_spec.
  split.
  - intros [(n & Hn & Hin) Hrow]. split; [done |]. exists n. by rewrite <- Hids.
  - intros [Hrow (n & Hn & HP)]. split; [| done]. exists n. by rewrite Hids.
Qed.

(** X3.  On a well-formed node set, [GetAllResourcesByType] for the type
    ["ecs"] is the page window of a list that keeps the order of the ECS
    store and holds exactly the rows with a bound node whose ID is a leaf
    reachable from the root ID: a resource bound to a leaf is listed under
    that leaf and under each of its ancestors, and under nothing else. *)
Theorem GetAllResourcesByType_scope {DB} (ts : service.treeService DB)
    (db : DB) (nodes : list TreeNode) (rows : list ResourceEcs) (nid : Z) :
  tree_node.GetAllNoPreload (service.nodeDao ts) db = Ok nodes ->
  tree.well_formed nodes = true ->
  ecs.GetAll (service.ecsDao ts) db = Ok rows ->
  ∃ kept,
    kept `sublist_of` rows
    ∧ (∀ e, e ∈ kept
            <-> e ∈ rows
                ∧ ∃ n, n ∈ ecs_BindNodes e ∧ tree.leaf_under nodes nid (ID n))
    ∧ ∀ fuel page size, (length nodes + 2 <= fuel)%nat ->
        service.GetAllResourcesByType ts fuel db nid "ecs" page size
        = Some (service.paginate (ecs_ResourceTree <$> kept) page size).
Proof.
  intros Hget Hwf Hrows.
  destruct (resolver_set nodes nid Hwf) as (ids & Hids & Hrun).
  destruct (collect_scope ecs_ResourceTree ecs_BindNodes ids _ rows Hids)
    as (kept & Hkept & Hsub & Hmem).
  exists kept. split; [done |]. split; [done |].
  intros fuel page size Hfuel.
  rewrite <- Hkept, collect_filter.
  apply GetAllResourcesByType_ecs; [| done].
  rewrite (getChildrenTreeNodeIds_fetched _ _ _ _ _ Hget). by apply Hrun.
Qed.

Lemma GetAllResourcesByType_scope_witness :
  ∃ kept,
    kept `sublist_of` [sample.E1; sample.E2]
    ∧ (∀ e, e ∈ kept
            <-> e ∈ [sample.E1; sample.E2]
                ∧ ∃ n, n ∈ ecs_BindNodes e
                       ∧ tree.leaf_under sample.family 1 (ID n))
    ∧ ∀ fuel page size, (length sample.family + 2 <= fuel)%nat ->
        service.GetAllResourcesByType sample.svc fuel sample.db_bound 1 "ecs"
          page size
        = Some (service.paginate (ecs_ResourceTree <$> kept) page size).
Proof.
  apply (GetAllResourcesByType_scope sample.svc sample.db_bound sample.family
           [sample.E1; sample.E2] 1).
  - reflexivity.
  - vm_compute. reflexivity.
  - reflexivity.
Defined.




(** The mixed store of the samples: the load balancer is listed under the
    root and under node 3, the unbound database nowhere, and a type the
    switch does not know gives the empty page. *)
Example GetAllResourcesByType_mixed :
  service.GetAllResourcesByType sample.svc 5 sample_more.db_mixed 1 "elb" 1 10
    = Some (Return (Ok [elb_ResourceTree sample_more.L1]))
  ∧ service.GetAllResourcesByType sample.svc 5 sample_more.db_mixed 2 "elb" 1 10
    = Some (Return (Ok []))
  ∧ service.GetAllResourcesByType sample.svc 5 sample_more.db_mixed 1 "rds" 1 10
    = Some (Return (Ok []))
  ∧ service.GetAllResourcesByType sample.svc 5 sample_more.db_mixed 1 "ECS" 1 10
    = Some (Return (Ok [])).
Proof. repeat split; vm_compute; reflexivity. Qed.

Lemma collect_monotone {R} (tree : R -> ResourceTree)
    (bindNodes : R -> list TreeNode) (ids ids' : gset Z) (rows : list R) :
  ids ⊆ ids' ->
  service.collect tree bindNodes ids rows
  `sublist_of` service.collect tree bindNodes ids' rows.
Proof.
  intros Hsub. rewrite !collect_filter. apply fmap_sublist.
  rewrite <- (list_filter_filter_l
                (fun e => service.bound_under ids (bindNodes e) = true)
                (fun e => service.bound_under ids' (bindNodes e) = true)).
  - apply sublist_filter.
  - intros e (n & Hn & Hin)%bound_under_spec. apply bound_under_spec.
    exists n. split; [done | by apply Hsub].
Qed.

(** X5.  On a well-formed node set, when [c] is reachable from the node [r]
    along the parent-to-child links, the unpaginated list of ECS resources
    under [c] is a sublist of the one under [r]: moving the root of a query
    up the tree never loses a resource and never reorders the ones it
    had. *)
Theorem GetAllResourcesByType_monotone {DB} (ts : service.treeService DB)
    (db : DB) (nodes : list TreeNode) (rows : list ResourceEcs) (r c : Z) :
  tree_node.GetAllNoPreload (service.nodeDao ts) db = Ok nodes ->
  tree.well_formed nodes = true ->
  ecs.GetAll (service.ecsDao ts) db = Ok rows ->
  tree.is_node nodes r ->
  rtc (tree.child_of nodes) r c ->
  ∃ under_r under_c,
    under_c `sublist_of` under_r
    ∧ ∀ fuel page size, (length nodes + 2 <= fuel)%nat ->
        service.GetAllResourcesByType ts fuel db r "ecs" page size
        = Some (service.paginate under_r page size)
        ∧ service.GetAllResourcesByType ts fuel db c "ecs" page size
          = Some (service.paginate under_c page size).
Proof.
  intros Hget Hwf Hrows Hr Hrc.
  destruct (resolver_set nodes r Hwf) as (ids_r & Hids_r & Hrun_r).
  destruct (resolver_set nodes c Hwf) as (ids_c & Hids_c & Hrun_c).
  exists (service.collect ecs_ResourceTree ecs_BindNodes ids_r rows),
         (service.collect ecs_ResourceTree ecs_BindNodes ids_c rows).
  split.
  - apply collect_monotone. intros x Hx. apply Hids_r.
    apply Hids_c in Hx. by eapply leaf_under_ancestor.
  - intros fuel page size Hfuel. rewrite !collect_filter. split.
    + apply GetAllResourcesByType_ecs; [| done].
      rewrite (getChildrenTreeNodeIds_fetched _ _ _ _ _ Hget). by apply Hrun_r.
    + apply GetAllResourcesByType_ecs; [| done].
      rewrite (getChildrenTreeNodeIds_fetched _ _ _ _ _ Hget). by apply Hrun_c.
Qed.

Lemma GetAllResourcesByType_monotone_witness :
  ∃ under_r under_c,
    under_c `sublist_of` under_r
    ∧ ∀ fuel page size, (length sample.family + 2 <= fuel)%nat ->
        service.GetAllResourcesByType sample.svc fuel sample.db_bound 1 "ecs"
          page size
        = Some (service.paginate under_r page size)
        ∧ service.GetAllResourcesByType sample.svc fuel sample.db_bound 2 "ecs"
            page size
          = Some (service.paginate under_c page size).
Proof.
  apply (GetAllResourcesByType_monotone sample.svc sample.db_bound sample.family
           [sample.E1; sample.E2] 1 2).
  - reflexivity.
  - vm_compute. reflexivity.
  - reflexivity.
  - apply node_row_is_node. vm_compute. by eexists.
  - apply rtc_once. exists (sample.node 2 1 2 1).
    split; [apply list_elem_of_further, list_elem_of_here | done].
Defined.

(** ** The unbind lists *)

Lemma keep_unbound_filter {R} (bindNodes : R -> list TreeNode) (rows : list R) :
  foldl (tree_service.keep_unbound bindNodes) [] rows
  = filter (fun e => bindNodes e = []) rows.
Proof.
  enough (Hgen : ∀ acc, foldl (tree_service.keep_unbound bindNodes) acc rows
                        = acc ++ filter (fun e => bindNodes e = []) rows)
    by apply (Hgen []).
  induction rows as [|e rows IH]; intros acc; simpl; [by rewrite app_nil_r |].
  rewrite IH, filter_cons. unfold tree_service.keep_unbound.
  destruct (decide (len (bindNodes e) = 0)) as [Hnone | Hsome];
    destruct (decide (bindNodes e = [])) as [Hnil | Hcons]; try done.
  - by rewrite <- app_assoc.
  - destruct (bindNodes e); [done | unfold len in Hnone; simpl in Hnone; lia].
  - rewrite Hnil in Hsome. by destruct Hsome.
Qed.

Lemma collect_unbound {R} (tree : R -> ResourceTree)
    (bindNodes : R -> list TreeNode) (ids : gset Z) (rows : list R) :
  service.collect tree bindNodes ids (filter (fun e => bindNodes e = []) rows) = [].
Proof.
  rewrite collect_filter.
  induction rows as [|e rows IH]; [done |].
  rewrite filter_cons. destruct (decide (bindNodes e = [])) as [Hnil | ?]; [| done].
  rewrite filter_cons, decide_False; [done |]. by rewrite Hnil.
Qed.

(** X6.  [GetEcsUnbindList], [GetElbUnbindList] and [GetRdsUnbindList]
    return, in the order of the store, exactly the rows without a bound
    node; together with the rows that have one they make up the store's
    list; and no row of an unbind list is ever collected by scoped
    aggregation, whatever the set of node IDs. *)
Theorem unbind_lists {DB} (ts : service.treeService DB) (db : DB) :
  (∀ rows, ecs.GetAll (service.ecsDao ts) db = Ok rows ->
     ∃ unbind,
       tree_service.GetEcsUnbindList ts db = Ok unbind
       ∧ unbind = filter (fun e => ecs_BindNodes e = []) rows
       ∧ (length unbind + length (filter (fun e => ecs_BindNodes e ≠ []) rows)
          = length rows)%nat
       ∧ ∀ ids, service.collect ecs_ResourceTree ecs_BindNodes ids unbind = [])
  ∧ (∀ rows, elb.GetAll (service.elbDao ts) db = Ok rows ->
       ∃ unbind,
         tree_service.GetElbUnbindList ts db = Ok unbind
         ∧ unbind = filter (fun e => elb_BindNodes e = []) rows
         ∧ (length unbind + length (filter (fun e => elb_BindNodes e ≠ []) rows)
            = length rows)%nat
         ∧ ∀ ids, service.collect elb_ResourceTree elb_BindNodes ids unbind = [])
  ∧ (∀ rows, rds.GetAll (service.rdsDao ts) db = Ok rows ->
       ∃ unbind,
         tree_service.GetRdsUnbindList ts db = Ok unbind
         ∧ unbind = filter (fun e => rds_BindNodes e = []) rows
         ∧ (length unbind + length (filter (fun e => rds_BindNodes e ≠ []) rows)
            = length rows)%nat
         ∧ ∀ ids, service.collect rds_ResourceTree rds_BindNodes ids unbind = []).
Proof.
  assert (Hsplit : ∀ R (bindNodes : R -> list TreeNode) (rows : list R),
            (length (filter (fun e => bindNodes e = []) rows)
             + length (filter (fun e => bindNodes e ≠ []) rows)
             = length rows)%nat).
  { intros R bindNodes rows.
    rewrite <- length_app. apply Permutation_length, filter_app_complement. }
  repeat split.
  - intros rows Hrows. eexists. split; [| split; [done | split]].
    + unfold tree_service.GetEcsUnbindList. by rewrite Hrows, keep_unbound_filter.
    + apply Hsplit.
    + intros ids. apply collect_unbound.
  - intros rows Hrows. eexists. split; [| split; [done | split]].
    + unfold tree_service.GetElbUnbindList. by rewrite Hrows, keep_unbound_filter.
    + apply Hsplit.
    + intros ids. apply collect_unbound.
  - intros rows Hrows. eexists. split; [| split; [done | split]].
    + unfold tree_service.GetRdsUnbindList. by rewrite Hrows, keep_unbound_filter.
    + apply Hsplit.
    + intros ids. apply collect_unbound.
Qed.

Lemma unbind_lists_witness :
  ∃ unbind,
    tree_service.GetEcsUnbindList sample.svc sample.db_bound = Ok unbind
    ∧ unbind = filter (fun e => ecs_BindNodes e = []) [sample.E1; sample.E2]
    ∧ (length unbind
       + length (filter (fun e => ecs_BindNodes e ≠ []) [sample.E1; sample.E2])
       = length [sample.E1; sample.E2])%nat
    ∧ ∀ ids, service.collect ecs_ResourceTree ecs_BindNodes ids unbind = [].
Proof.
  apply (proj1 (unbind_lists sample.svc sample.db_bound)). reflexivity.
Defined.

(** ** Every outcome of the page window *)

Lemma wrap_range z : is_int (wrap z).
Proof.
  unfold is_int, wrap. rewrite int_min_value, int_max_value.
  pose proof (Z.mod_pos_bound (z + 2 ^ 63) (2 ^ 64) ltac:(lia)). lia.
Qed.



(** X8.  A page that comes back is a run of consecutive items of the
    filtered list: it never holds more than [size] items, it is full
    whenever [size] more items are left from its offset on, and it starts
    at its offset.  [page] and [size] are [int]s. *)
Theorem paginate_page {A} (resources items : list A) (page size : Z) :
  is_int size ->
  service.paginate resources page size = Return (Ok items) ->
  len items <= Z.max 0 size
  ∧ (∃ before after,
       resources = before ++ items ++ after
       ∧ (items ≠ [] -> len before = mul (sub page 1) size))
  ∧ (0 <= size ->
     mul (sub page 1) size + size <= len resources ->
     len items = size).
Proof.
  unfold is_int. rewrite int_min_value, int_max_value. intros Hsize.
  unfold service.paginate, slice.
  pose proof (len_nonneg resources) as Hlen.
  pose proof (wrap_range ((sub page 1) * size)) as Hoff.
  fold (mul (sub page 1) size) in Hoff.
  set (offset := mul (sub page 1) size) in *.
  unfold is_int in Hoff. rewrite int_min_value, int_max_value in Hoff.
  destruct (decide (offset >= len resources)) as [Hpast | Hin].
  { intros [= <-]. split; [unfold len; simpl; lia |]. split.
    - exists [], resources. by split.
    - intros H0 Hfull. unfold len. simpl. lia. }
  set (end_ := add offset size).
  assert (Hend : 0 <= offset -> offset <= end_ -> end_ = offset + size).
  { intros H0 Hle. unfold end_, add in *.
    destruct (decide (offset + size <= 9223372036854775807)) as [Hfit | Hover].
    - apply wrap_small. unfold is_int. rewrite int_min_value, int_max_value. lia.
    - exfalso. unfold wrap in Hle.
      replace (offset + size + 2 ^ 63) with ((offset + size - 2 ^ 63) + 1 * 2 ^ 64)
        in Hle by lia.
      rewrite Z.mod_add, Z.mod_small in Hle by lia. lia. }
  assert (Hshape : ∀ hi, 0 <= offset -> offset <= hi -> hi <= len resources ->
            hi <= offset + size ->
            (hi = offset + size ∨ hi = len resources) ->
            let items := take (Z.to_nat (hi - offset)) (drop (Z.to_nat offset) resources) in
            len items <= Z.max 0 size
            ∧ (∃ before after,
                 resources = before ++ items ++ after
                 ∧ (items ≠ [] -> len before = offset))
            ∧ (0 <= size -> offset + size <= len resources -> len items = size)).
  { intros hi H0 Hlo Hhi Hsz Hcase. simpl. unfold len in *.
    rewrite length_take, length_drop.
    split; [lia |]. split.
    - exists (take (Z.to_nat offset) resources),
             (drop (Z.to_nat (hi - offset)) (drop (Z.to_nat offset) resources)).
      split; [by rewrite take_drop, take_drop |].
      intros _. rewrite length_take. lia.
    - intros Hs Hfull. lia. }
  destruct (decide (end_ > len resources)) as [Hover | Hfit].
  - destruct (bool_decide (0 <= offset ∧ offset <= len resources
                           ∧ len resources <= len resources)) eqn:Hb; [| done].
    apply bool_decide_eq_true in Hb as (H0 & _ & _).
    intros [= <-]. assert (end_ = offset + size) by (apply Hend; lia).
    apply Hshape; lia.
  - destruct (bool_decide (0 <= offset ∧ offset <= end_
                           ∧ end_ <= len resources)) eqn:Hb; [| done].
    apply bool_decide_eq_true in Hb as (H0 & Hle & Hhi).
    intros [= <-]. assert (end_ = offset + size) by (apply Hend; lia).
    apply Hshape; lia.
Qed.

Lemma paginate_page_witness :
  len [30; 40] <= Z.max 0 2
  ∧ (∃ before after,
       [10; 20; 30; 40; 50] = before ++ [30; 40] ++ after
       ∧ ([30; 40] ≠ [] -> len before = mul (sub 2 1) 2))
  ∧ (0 <= 2 ->
     mul (sub 2 1) 2 + 2 <= len [10; 20; 30; 40; 50] ->
     len [30; 40] = 2).
Proof.
  apply (paginate_page [10; 20; 30; 40; 50] [30; 40] 2 2).
  - vm_compute. split; discriminate.
  - reflexivity.
Defined.

(** ** The level filter *)

Lemma select_node_filter level levelLt nodes :
  foldl (tree_service.select_node level levelLt) [] nodes
  = (fun n => set_Value (ID n) n)
      <$> filter (fun n => (level <= 0 ∨ Level n = level)
                           ∧ (levelLt <= 0 ∨ Level n <= levelLt)) nodes.
Proof.
  enough (Hgen : ∀ acc,
            foldl (tree_service.select_node level levelLt) acc nodes
            = acc ++ ((fun n => set_Value (ID n) n)
                        <$> filter (fun n => (level <= 0 ∨ Level n = level)
                                             ∧ (levelLt <= 0 ∨ Level n <= levelLt))
                                   nodes))
    by apply (Hgen []).
  induction nodes as [|n nodes IH]; intros acc; simpl; [by rewrite app_nil_r |].
  rewrite IH, filter_cons. unfold tree_service.select_node.
  destruct (decide (level > 0 ∧ Level n ≠ level)) as [Hskip | Hkeep].
  { rewrite decide_False; [done | lia]. }
  destruct (decide (levelLt > 0 ∧ Level n > levelLt)) as [Hskip' | Hkeep'].
  { rewrite decide_False; [done | lia]. }
  rewrite decide_True by lia. by rewrite fmap_cons, <- app_assoc.
Qed.

(** X9.  [SelectTreeNode] returns, in the order of the store and each with
    [Value] set to its [ID], exactly the nodes that pass both filters: the
    exact level when [level] is positive, the upper bound when [levelLt] is
    positive.  A filter that is 0 or negative lets every node pass. *)
Theorem SelectTreeNode_selects {DB} (ts : service.treeService DB) (db : DB)
    (nodes : list TreeNode) (level levelLt : Z) :
  tree_node.GetAll (service.nodeDao ts) db = Ok nodes ->
  ∃ selected,
    tree_service.SelectTreeNode ts db level levelLt
    = Ok ((fun n => set_Value (ID n) n) <$> selected)
    ∧ selected `sublist_of` nodes
    ∧ (∀ n, n ∈ selected
            <-> n ∈ nodes
                ∧ (level <= 0 ∨ Level n = level)
                ∧ (levelLt <= 0 ∨ Level n <= levelLt))
    ∧ (level <= 0 -> levelLt <= 0 -> selected = nodes).
Proof.
  intros Hget.
  exists (filter (fun n => (level <= 0 ∨ Level n = level)
                           ∧ (levelLt <= 0 ∨ Level n <= levelLt)) nodes).
  split; [| split; [apply sublist_filter | split]].
  - unfold tree_service.SelectTreeNode. by rewrite Hget, select_node_filter.
  - intros n. rewrite list_elem_of_filter. tauto.
  - intros Hlevel HlevelLt. clear Hget.
    induction nodes as [|n l IH]; [done |].
    rewrite filter_cons, decide_True by (split; by left). by rewrite IH.
Qed.

Lemma SelectTreeNode_selects_witness :
  ∃ selected,
    tree_service.SelectTreeNode sample.svc (sample.db_of sample.family) 2 0
    = Ok ((fun n => set_Value (ID n) n) <$> selected)
    ∧ selected `sublist_of` sample.family
    ∧ (∀ n, n ∈ selected
            <-> n ∈ sample.family
                ∧ (2 <= 0 ∨ Level n = 2)
                ∧ (0 <= 0 ∨ Level n <= 0))
    ∧ (2 <= 0 -> 0 <= 0 -> selected = sample.family).
Proof.
  apply (SelectTreeNode_selects sample.svc (sample.db_of sample.family)
           sample.family 2 0).
  reflexivity.
Defined.



(** ** The forest in closed form *)

Lemma pick_cons {A} (f : A -> A) (p q : nat) (ps : list nat) (x : A) :
  f (f x) = f x ->
  (if decide (p ∈ ps) then f else id) ((if decide (p = q) then f else id) x)
  = (if decide (p ∈ q :: ps) then f else id) x.
Proof.
  intros Hidem.
  destruct (decide (p ∈ q :: ps)) as [Hall | Hnone],
           (decide (p ∈ ps)) as [Hin | Hout],
           (decide (p = q)) as [Heq | Hne]; try done.
  - apply elem_of_cons in Hall as [? | ?]; done.
  - destruct Hnone. by apply list_elem_of_further.
  - destruct Hnone. by apply list_elem_of_further.
  - destruct Hnone. subst. apply list_elem_of_here.
Qed.

Lemma classify_step_lookup q heap topNodes childrenMap p :
  (service.classify (heap, topNodes, childrenMap) q).1.1 !! p
  = (if decide (p = q) then forest.keyed else id) <$> heap !! p.
Proof.
  unfold service.classify. cbv beta iota.
  destruct (heap !! q) as [node|] eqn:Hq.
  - assert (Hlt : (q < length heap)%nat) by (by eapply lookup_lt_Some).
    assert (Hheap : (<[q := set_Key (Itoa (ID node)) node]> heap) !! p
                    = (if decide (p = q) then forest.keyed else id) <$> heap !! p).
    { destruct (decide (p = q)) as [-> | Hne].
      - by rewrite list_lookup_insert_eq, Hq.
      - rewrite list_lookup_insert_ne by done. by destruct (heap !! p). }
    simpl. by destruct (decide (Pid node = 0)).
  - simpl. destruct (decide (p = q)) as [-> | Hne].
    + by rewrite Hq.
    + by destruct (heap !! p).
Qed.

Lemma classify_lookup ps heap topNodes childrenMap p :
  (foldl service.classify (heap, topNodes, childrenMap) ps).1.1 !! p
  = (if decide (p ∈ ps) then forest.keyed else id) <$> heap !! p.
Proof.
  revert heap topNodes childrenMap.
  induction ps as [|q ps IH]; intros heap top cm.
  - destruct (decide (p ∈ [])) as [Hin | _]; [by apply elem_of_nil in Hin |].
    simpl. by destruct (heap !! p).
  - change (foldl service.classify (heap, top, cm) (q :: ps))
      with (foldl service.classify (service.classify (heap, top, cm) q) ps).
    pose proof (classify_step_lookup q heap top cm p) as Hstep.
    destruct (service.classify (heap, top, cm) q) as [[heap1 top1] cm1].
    simpl in Hstep. rewrite IH, Hstep.
    destruct (heap !! p) as [node|]; simpl; [| done].
    f_equal. by apply pick_cons.
Qed.

Lemma classify_fold_nonempty ps heap topNodes childrenMap :
  (∀ k l, childrenMap !! k = Some l -> l ≠ []) ->
  ∀ k l, (foldl service.classify (heap, topNodes, childrenMap) ps).2 !! k = Some l ->
         l ≠ [].
Proof.
  revert heap topNodes childrenMap.
  induction ps as [|q ps IH]; intros heap top cm Hcm; [done |].
  change (foldl service.classify (heap, top, cm) (q :: ps))
    with (foldl service.classify (service.classify (heap, top, cm) q) ps).
  assert (Hstep : ∀ k l, (service.classify (heap, top, cm) q).2 !! k = Some l ->
                         l ≠ []).
  { unfold service.classify. cbv beta iota.
    destruct (heap !! q) as [node|]; [| done]. simpl.
    destruct (decide (Pid node = 0)); [done |]. simpl.
    intros k l. destruct (decide (Pid node = k)) as [<- | Hne].
    - rewrite lookup_insert_eq. intros [= <-]. by destruct (cm !!! Pid node).
    - rewrite lookup_insert_ne by done. apply Hcm. }
  destruct (service.classify (heap, top, cm) q) as [[heap1 top1] cm1].
  by apply IH.
Qed.

Lemma attach_lookup childrenMap ps heap p :
  foldl (service.attach childrenMap) heap ps !! p
  = (if decide (p ∈ ps) then forest.hang childrenMap else id) <$> heap !! p.
Proof.
  revert heap. induction ps as [|q ps IH]; intros heap.
  - destruct (decide (p ∈ [])) as [Hin | _]; [by apply elem_of_nil in Hin |].
    simpl. by destruct (heap !! p).
  - simpl. rewrite IH.
    assert (Hstep : service.attach childrenMap heap q !! p
                    = (if decide (p = q) then forest.hang childrenMap else id)
                        <$> heap !! p).
    { unfold service.attach, forest.hang.
      destruct (heap !! q) as [node|] eqn:Hq.
      - destruct (childrenMap !! ID node) as [children|] eqn:Hc.
        + assert (Hlt : (q < length heap)%nat) by (by eapply lookup_lt_Some).
          destruct (decide (p = q)) as [-> | Hne].
          * by rewrite list_lookup_insert_eq, Hq by done; simpl; rewrite Hc.
          * rewrite list_lookup_insert_ne by done. by destruct (heap !! p).
        + destruct (decide (p = q)) as [-> | Hne].
          * rewrite Hq. simpl. by rewrite Hc.
          * by destruct (heap !! p).
      - destruct (decide (p = q)) as [-> | Hne].
        + by rewrite Hq.
        + by destruct (heap !! p). }
    rewrite Hstep.
    destruct (heap !! p) as [node|]; simpl; [| done].
    f_equal. apply pick_cons. unfold forest.hang.
    destruct (childrenMap !! ID node) as [children|] eqn:Hc; simpl;
      by rewrite Hc.
Qed.

(** X11.  For every node set the store answers, ill-formed or not,
    [ListTreeNodes] returns the pointers to the nodes with [Pid] 0 in the
    order of the store, and leaves every node with its [Key] set to the
    decimal text of its [ID] and, when some node names it as parent, with
    those nodes as its [Children], in the order of the store.  A node that
    nobody names as parent, and any node of ID 0, keeps the [Children] it
    was loaded with; no other field of any node changes. *)
Theorem ListTreeNodes_closed_form {DB} (ts : service.treeService DB) (db : DB)
    (nodes : list TreeNode) :
  tree_node.GetAll (service.nodeDao ts) db = Ok nodes ->
  service.ListTreeNodes ts db
  = Ok (forest.roots nodes, forest.placed nodes <$> nodes).
Proof.
  intros Hget. unfold service.ListTreeNodes. rewrite Hget.
  pose proof (classify_lookup (seq 0 (length nodes)) nodes [] ∅) as Hheap.
  pose proof (classify_fold_nonempty (seq 0 (length nodes)) nodes [] ∅) as Hne.
  destruct (foldl service.classify (nodes, [], ∅) (seq 0 (length nodes)))
    as [[heap1 top1] cm1] eqn:Hfold.
  apply classify_fold in Hfold as (_ & _ & _ & -> & Hcm).
  simpl in Hheap, Hne. f_equal. f_equal.
  apply list_eq. intros p.
  rewrite attach_lookup, Hheap, list_lookup_fmap.
  destruct (nodes !! p) as [node|] eqn:Hnode; [| done].
  assert (Hp : p ∈ seq 0 (length nodes)).
  { apply elem_of_seq. apply lookup_lt_Some in Hnode. lia. }
  rewrite !decide_True by done. simpl. f_equal.
  unfold forest.hang, forest.placed, forest.children_of.
  change (ID (forest.keyed node)) with (ID node).
  specialize (Hcm (ID node)). rewrite lookup_total_empty in Hcm. simpl in Hcm.
  destruct (cm1 !! ID node) as [children|] eqn:Hc.
  - rewrite lookup_total_alt, Hc in Hcm. simpl in Hcm. subst children.
    rewrite decide_False; [done |].
    eapply Hne; [by intros k l; rewrite lookup_empty | exact Hc].
  - rewrite lookup_total_alt, Hc in Hcm. simpl in Hcm.
    by rewrite <- Hcm, decide_True.
Qed.

Lemma ListTreeNodes_closed_form_witness :
  service.ListTreeNodes sample.svc (sample.db_of sample_more.crooked)
  = Ok (forest.roots sample_more.crooked,
        forest.placed sample_more.crooked <$> sample_more.crooked).
Proof.
  apply (ListTreeNodes_closed_form sample.svc
           (sample.db_of sample_more.crooked) sample_more.crooked).
  reflexivity.
Defined.

(** On the crooked sample the node 3 hangs under both nodes of ID 2. *)
Example ListTreeNodes_crooked :
  ∃ heap,
    service.ListTreeNodes sample.svc (sample.db_of sample_more.crooked)
    = Ok ([0%nat], heap)
    ∧ Children <$> heap = [[1%nat; 3%nat]; [2%nat]; []; [2%nat]].
Proof. eexists. split; [vm_compute; reflexivity | reflexivity]. Qed.

(** ** The guards of node creation *)

(** X12.  What [CreateTreeNode] refuses besides a level too deep, each time
    with the state untouched: a request that is not a root request fails
    with the fixed parent-fetch error when the store fails (the store's own
    error is dropped), with the parent-missing error when the store has no
    such node, and with the leaf-parent error when the parent is a leaf and
    the level passes; when both the level and the leaf guard object, the
    level error is the one returned.  A root request ([Pid] 0, [Level] 1)
    goes to the store's [Create] without the parent being fetched. *)
Theorem CreateTreeNode_refusals {DB} (ts : service.treeService DB) (db : DB)
    (obj : TreeNode) :
  (Pid obj = 0 ∧ Level obj = 1 ->
   service.CreateTreeNode ts db obj = tree_node.Create (service.nodeDao ts) db obj)
  ∧ (¬ (Pid obj = 0 ∧ Level obj = 1) ->
     (∀ err, tree_node.GetByID (service.nodeDao ts) db (Pid obj) = Err err ->
        service.CreateTreeNode ts db obj
        = (Some (errors_New "获取父节点失败"), db))
     ∧ (tree_node.GetByID (service.nodeDao ts) db (Pid obj) = Ok None ->
        service.CreateTreeNode ts db obj = (Some (errors_New "父节点不存在"), db))
     ∧ (∀ parent,
          tree_node.GetByID (service.nodeDao ts) db (Pid obj) = Ok (Some parent) ->
          IsLeaf parent = 1 ->
          (Level obj < add (Level parent) 2 ->
           service.CreateTreeNode ts db obj
           = (Some (errors_New "创建节点失败，父节点为叶子节点，无法添加子节点"), db))
          ∧ (Level obj >= add (Level parent) 2 ->
             service.CreateTreeNode ts db obj
             = (Some (errors_New "创建节点失败，节点层级超出限制"), db)))).
Proof.
  unfold service.CreateTreeNode. split.
  - intros Hroot. by rewrite decide_True.
  - intros Hnonroot. rewrite decide_False by done. split; [| split].
    + intros err Herr. by rewrite Herr.
    + intros Hnone. by rewrite Hnone.
    + intros parent Hparent Hleaf. rewrite Hparent. split; intros Hlevel.
      * rewrite decide_False by lia. by rewrite decide_True.
      * by rewrite decide_True.
Qed.

Lemma CreateTreeNode_refusals_witness :
  service.CreateTreeNode sample.svc (sample.db_of sample.family)
    (sample.node 4 2 3 0)
  = (Some (errors_New "创建节点失败，父节点为叶子节点，无法添加子节点"),
     sample.db_of sample.family)
  ∧ service.CreateTreeNode sample.svc (sample.db_of sample.family)
      (sample.node 4 9 2 0)
    = (Some (errors_New "父节点不存在"), sample.db_of sample.family).
Proof.
  split.
  - apply (proj1 (proj2 (proj2 (proj2 (CreateTreeNode_refusals sample.svc
             (sample.db_of sample.family) (sample.node 4 2 3 0))
             ltac:(simpl; lia))) (sample.node 2 1 2 1) eq_refl eq_refl)).
    vm_compute. reflexivity.
  - apply (proj1 (proj2 (proj2 (CreateTreeNode_refusals sample.svc
             (sample.db_of sample.family) (sample.node 4 9 2 0))
             ltac:(simpl; lia)))).
    reflexivity.
Defined.

(** ** The invariant of the node table, and the two writes that keep it *)

(** The invariant, spelled out. *)
Lemma invariant_spec nodes :
  invariant.holds nodes = true
  <-> NoDup (ID <$> nodes)
      ∧ (∀ x, ¬ tc (tree.child_of nodes) x x)
      ∧ (∀ n m, n ∈ nodes -> IsLeaf n = 1 -> m ∈ nodes -> Pid m ≠ ID n)
      ∧ (∀ n, n ∈ nodes -> Pid n = 0 ∨ Pid n ∈ ID <$> nodes)
      ∧ (∀ n, n ∈ nodes -> ID n ≠ 0)
      ∧ (∀ n, n ∈ nodes ->
           is_int (Level n) ∧ (Pid n = 0 -> Level n = 1)
           ∧ (∀ p, p ∈ nodes -> ID p = Pid n -> Level n <= Level p + 1)).
Proof.
  unfold invariant.holds, tree.well_formed, tree.distinct_ids.
  rewrite !andb_true_iff, bool_decide_eq_true.
  split.
  - intros [[[[[Hnd Hac] Hleaf] Hpar] Hpos] Hlev].
    split; [done |]. split; [by apply acyclic_iff |].
    split; [intros n m; by apply leaves_childless_spec |].
    split; [intros n; by apply parents_present_spec |].
    split.
    + intros n Hn%list_elem_of_In. unfold invariant.positive_ids in Hpos.
      rewrite forallb_forall in Hpos. apply Hpos in Hn.
      by apply bool_decide_eq_true in Hn.
    + intros n Hn%list_elem_of_In. unfold invariant.levels in Hlev.
      rewrite forallb_forall in Hlev. apply Hlev in Hn.
      rewrite !andb_true_iff, bool_decide_eq_true in Hn.
      destruct Hn as [[Hint Hroot] Hup]. split; [done |]. split.
      * intros Hpid. rewrite bool_decide_eq_true_2 in Hroot by done.
        by apply bool_decide_eq_true in Hroot.
      * intros p Hp%list_elem_of_In Hid. rewrite forallb_forall in Hup.
        apply Hup in Hp. rewrite bool_decide_eq_true_2 in Hp by done.
        by apply bool_decide_eq_true in Hp.
  - intros (Hnd & Hac & Hleaf & Hpar & Hpos & Hlev).
    repeat split; [done | by apply acyclic_iff | | | |].
    + unfold tree.leaves_childless. apply forallb_forall.
      intros n Hn%list_elem_of_In. destruct (decide (IsLeaf n = 1)) as [Hl|Hl].
      * rewrite bool_decide_eq_true_2 by done. simpl. apply forallb_forall.
        intros m Hm%list_elem_of_In. apply bool_decide_eq_true. by apply Hleaf.
      * by rewrite bool_decide_eq_false_2.
    + unfold tree.parents_present. apply forallb_forall.
      intros n Hn%list_elem_of_In. apply orb_true_iff.
      destruct (Hpar n Hn) as [Hroot | Hin].
      * left. by apply bool_decide_eq_true.
      * right. apply list_elem_of_fmap in Hin as (m & Hid & Hm).
        apply existsb_exists. exists m.
        split; [by apply list_elem_of_In | by apply bool_decide_eq_true].
    + unfold invariant.positive_ids. apply forallb_forall.
      intros n Hn%list_elem_of_In. apply bool_decide_eq_true. by apply Hpos.
    + unfold invariant.levels. apply forallb_forall.
      intros n Hn%list_elem_of_In. destruct (Hlev n Hn) as (Hint & Hroot & Hup).
      rewrite !andb_true_iff. repeat split.
      * by apply bool_decide_eq_true.
      * destruct (decide (Pid n = 0)) as [Hp|Hp].
        -- rewrite bool_decide_eq_true_2 by done. simpl.
           apply bool_decide_eq_true. by apply Hroot.
        -- by rewrite bool_decide_eq_false_2.
      * apply forallb_forall. intros p Hp%list_elem_of_In.
        destruct (decide (ID p = Pid n)) as [Hid|Hid].
        -- rewrite bool_decide_eq_true_2 by done. simpl.
           apply bool_decide_eq_true. by apply Hup.
        -- by rewrite bool_decide_eq_false_2.
Qed.

(** Two rows of one ID are one row. *)
Lemma distinct_rows nodes n m :
  NoDup (ID <$> nodes) -> n ∈ nodes -> m ∈ nodes -> ID n = ID m -> n = m.
Proof.
  intros Hnd Hn Hm Hid.
  pose proof (node_row_distinct _ _ Hnd Hn) as Hrn.
  pose proof (node_row_distinct _ _ Hnd Hm) as Hrm.
  rewrite Hid in Hrn. congruence.
Qed.

(** A chain of links leaves its first node by a link. *)
Lemma tc_first_link {A} (R : relation A) x y : tc R x y -> ∃ z, R x z.
Proof. intros Htc. destruct Htc as [x y Hxy | x z y Hxz _]; by eexists. Qed.

(** With a node added that no link leaves, the chains are the old ones and
    those that end at the new node. *)
Lemma tc_with_sink {A} (R R' : relation A) (s : A) x y :
  (∀ a b, R' a b -> R a b ∨ b = s) ->
  (∀ b, ¬ R' s b) ->
  (∀ a b, R a b -> R' a b) ->
  tc R' x y -> tc R x y ∨ y = s.
Proof.
  intros Hsplit Hsink Hsub Htc.
  induction Htc as [x y Hxy | x z y Hxz Hzy IH].
  - destruct (Hsplit _ _ Hxy) as [Hold | ->]; [left; by apply tc_once | by right].
  - destruct IH as [Hold | ->]; [| by right].
    destruct (Hsplit _ _ Hxz) as [Hxz' | ->].
    + left. by eapply tc_l.
    + apply tc_first_link in Hold as [w Hw]. by destruct (Hsink w); apply Hsub.
Qed.

(** The requests that [CreateTreeNode] hands to the store. *)
Lemma CreateTreeNode_passed {DB} (ts : service.treeService DB) (db : DB)
    (obj : TreeNode) :
  (service.CreateTreeNode ts db obj).1 = None ->
  (Pid obj = 0 ∧ Level obj = 1)
  ∨ (∃ parent,
       tree_node.GetByID (service.nodeDao ts) db (Pid obj) = Ok (Some parent)
       ∧ Level obj < add (Level parent) 2 ∧ IsLeaf parent ≠ 1).
Proof.
  unfold service.CreateTreeNode.
  destruct (decide (Pid obj = 0 ∧ Level obj = 1)) as [Hroot|_]; [by left |].
  destruct (tree_node.GetByID (service.nodeDao ts) db (Pid obj))
    as [[parent|]|err]; [| done | done].
  destruct (decide (Level obj >= add (Level parent) 2)) as [|Hlevel]; [done |].
  destruct (decide (IsLeaf parent = 1)) as [|Hinner]; [done |].
  intros _. right. exists parent. repeat split; [lia | done].
Qed.

(** The sum of an [int] and 2, wrapped, is not above the sum. *)
Lemma add_two_below z : is_int z -> add z 2 <= z + 2.
Proof.
  unfold is_int, add, wrap. rewrite int_min_value, int_max_value. intros Hz.
  destruct (decide (z + 2 <= 2 ^ 63 - 1)) as [Hsmall|Hbig].
  - rewrite Z.mod_small; lia.
  - replace (z + 2 + 2 ^ 63) with ((z + 2 - 2 ^ 63) + 1 * 2 ^ 64) by lia.
    rewrite Z.mod_add by lia. rewrite Z.mod_small; lia.
Qed.

(** A table that holds the invariant, with a row added whose ID is new and
    not 0 and whose parent link is 0, with level 1, or names an inner node
    [parent] of the table, with a level below the [int] [Level parent + 2],
    holds the invariant. *)
Lemma invariant_append nodes row :
  invariant.holds nodes = true ->
  ID row ∉ ID <$> nodes -> ID row ≠ 0 -> is_int (Level row) ->
  (Pid row = 0 ∧ Level row = 1)
  ∨ (∃ parent, parent ∈ nodes ∧ ID parent = Pid row
               ∧ Level row < add (Level parent) 2 ∧ IsLeaf parent ≠ 1) ->
  invariant.holds (nodes ++ [row]) = true.
Proof.
  rewrite !invariant_spec.
  intros (Hnd & Hac & Hleaf & Hpar & Hpos & Hlev) Hfresh Hnz Hint Hguard.
  assert (Hparent : Pid row = 0 ∨ Pid row ∈ ID <$> nodes).
  { destruct Hguard as [[Hp _] | (parent & Hin & Hid & _)]; [by left |].
    right. rewrite <- Hid. by apply list_elem_of_fmap_2. }
  assert (Hown : Pid row ≠ ID row).
  { intros Heq. destruct Hparent as [Hp | Hp]; [congruence |].
    by rewrite Heq in Hp. }
  assert (Hsink : ∀ n, n ∈ nodes ++ [row] -> Pid n ≠ ID row).
  { intros n Hn Heq. apply elem_of_app in Hn as [Hn | Hn].
    - destruct (Hpar n Hn) as [Hp | Hp]; [congruence |].
      by rewrite Heq in Hp.
    - apply list_elem_of_singleton in Hn as ->. done. }
  assert (Hnd' : NoDup (ID <$> nodes ++ [row])).
  { rewrite fmap_app. apply NoDup_app. split; [done |]. split.
    - intros x Hx Hx'. apply list_elem_of_singleton in Hx' as ->. done.
    - apply NoDup_singleton. }
  split; [done |]. split; [| split; [| split; [| split]]].
  - intros x Hcycle.
    assert (Hcase : tc (tree.child_of nodes) x x ∨ x = ID row).
    { apply (tc_with_sink (tree.child_of nodes)
               (tree.child_of (nodes ++ [row])) (ID row)); [| | | done].
      - intros a b (n & Hn & Hid & Hpid).
        apply elem_of_app in Hn as [Hn | Hn].
        + left. by exists n.
        + apply list_elem_of_singleton in Hn as ->. by right.
      - intros b (n & Hn & _ & Hpid). by apply (Hsink n).
      - intros a b (n & Hn & Hid & Hpid). exists n.
        split; [apply elem_of_app; by left | done]. }
    destruct Hcase as [Hold | ->]; [by apply (Hac x) |].
    apply tc_first_link in Hcycle as (w & n & Hn & _ & Hpid).
    by apply (Hsink n).
  - intros n m Hn Hl Hm Heq.
    apply elem_of_app in Hn as [Hn | Hn].
    + apply elem_of_app in Hm as [Hm | Hm]; [by apply (Hleaf n m) |].
      apply list_elem_of_singleton in Hm as ->.
      destruct Hguard as [[Hp _] | (parent & Hin & Hid & _ & Hinner)].
      * apply (Hpos n Hn). congruence.
      * assert (parent = n) as ->; [| done].
        apply (distinct_rows nodes); [done .. | congruence].
    + apply list_elem_of_singleton in Hn as ->. by apply (Hsink m).
  - intros n Hn. rewrite fmap_app, elem_of_app.
    apply elem_of_app in Hn as [Hn | Hn].
    + destruct (Hpar n Hn); tauto.
    + apply list_elem_of_singleton in Hn as ->. tauto.
  - intros n Hn. apply elem_of_app in Hn as [Hn | Hn]; [by apply Hpos |].
    by apply list_elem_of_singleton in Hn as ->.
  - intros n Hn.
    assert (Hup : ∀ p, p ∈ nodes ++ [row] -> ID p = Pid n -> p ∈ nodes).
    { intros p Hp Hid. apply elem_of_app in Hp as [Hp | Hp]; [done |].
      apply list_elem_of_singleton in Hp as ->.
      by destruct (Hsink n Hn). }
    apply elem_of_app in Hn as [Hn | Hn].
    + destruct (Hlev n Hn) as (Hi & Hroot & Hparent').
      split; [done |]. split; [done |].
      intros p Hp Hid. apply Hparent'; [by apply Hup | done].
    + apply list_elem_of_singleton in Hn as ->.
      split; [done |]. split.
      * intros Hp. destruct Hguard as [[_ Hl] | (parent & Hin & Hid & _)];
          [done |].
        destruct (Hpos parent Hin). congruence.
      * intros p Hp Hid. pose proof (Hup p Hp Hid) as Hp'.
        destruct Hguard as [[Hz _] | (parent & Hin & Hid' & Hlevel & _)].
        -- destruct (Hpos p Hp'). congruence.
        -- assert (parent = p) as ->
             by (apply (distinct_rows nodes); [done .. | congruence]).
           destruct (Hlev p Hp') as (Hi & _).
           pose proof (add_two_below _ Hi). lia.
Qed.

(** Under the invariant no level is above the number of nodes on the chain
    of parent links. *)
Lemma level_below_depth nodes :
  invariant.holds nodes = true ->
  ∀ fuel n d, n ∈ nodes -> tree.depth nodes fuel (ID n) = Some d ->
              Level n <= Z.of_nat d.
Proof.
  rewrite invariant_spec. intros (Hnd & _ & _ & Hpar & _ & Hlev).
  induction fuel as [|fuel IH]; intros n d Hn; [done |].
  simpl. rewrite (node_row_distinct _ _ Hnd Hn).
  destruct (tree.depth nodes fuel (Pid n)) as [d'|] eqn:Hd; [| done].
  intros [= <-]. destruct (Hlev n Hn) as (_ & Hroot & Hup).
  destruct (Hpar n Hn) as [Hz | Hp].
  - rewrite (Hroot Hz). lia.
  - apply list_elem_of_fmap in Hp as (p & Hid & Hp).
    rewrite Hid in Hd. pose proof (IH p d' Hp Hd).
    pose proof (Hup p Hp (eq_sym Hid)). lia.
Qed.

(** X13.  [CreateTreeNode] keeps the invariant of the node table.  Let the
    table hold the invariant (IDs distinct and not 0, parent links acyclic
    and each 0 or the ID of a row, no leaf named as parent, a level 1 on
    every row without parent link and no level more than one above the
    parent's), and let the store answer a fetch by ID only with a row of
    the table that has the ID.  When the call reports no error, the table
    with the new row, whatever new non-zero ID the row got, holds the
    invariant again, and in it no row has a level above the number of rows
    on its chain of parent links. *)
Theorem CreateTreeNode_keeps_invariant {DB} (ts : service.treeService DB)
    (db : DB) (nodes : list TreeNode) (obj row : TreeNode) :
  (∀ parent,
     tree_node.GetByID (service.nodeDao ts) db (Pid obj) = Ok (Some parent) ->
     parent ∈ nodes ∧ ID parent = Pid obj) ->
  invariant.holds nodes = true ->
  (service.CreateTreeNode ts db obj).1 = None ->
  Pid row = Pid obj -> Level row = Level obj -> is_int (Level obj) ->
  ID row ∉ ID <$> nodes -> ID row ≠ 0 ->
  invariant.holds (nodes ++ [row]) = true
  ∧ (∀ n, n ∈ nodes ++ [row] ->
       ∃ d, tree.depth (nodes ++ [row]) (S (length (nodes ++ [row]))) (ID n)
            = Some d
            ∧ Level n <= Z.of_nat d).
Proof.
  intros Hstore Hinv Hpassed Hpid Hlevel Hint Hfresh Hnz.
  assert (Hinv' : invariant.holds (nodes ++ [row]) = true).
  { apply invariant_append; [done | done | done | by rewrite Hlevel |].
    rewrite Hpid, Hlevel.
    destruct (CreateTreeNode_passed ts db obj Hpassed)
      as [Hroot | (parent & Hget & Hlt & Hinner)]; [by left |].
    right. exists parent. destruct (Hstore parent Hget). done. }
  split; [done |]. intros n Hn.
  pose proof Hinv' as (Hnd & Hac & _)%invariant_spec.
  apply (acyclic_iff _ Hnd) in Hac.
  destruct (acyclic_depth _ _ Hac Hn) as [d Hd]. exists d.
  split; [done |]. by apply (level_below_depth _ Hinv' _ n d Hn Hd).
Qed.

Lemma CreateTreeNode_keeps_invariant_witness :
  invariant.holds (sample.family ++ [sample.node 4 1 2 0]) = true.
Proof.
  apply (CreateTreeNode_keeps_invariant sample.svc (sample.db_of sample.family)
           sample.family (sample.node 4 1 2 0) (sample.node 4 1 2 0)).
  - intros parent [= <-]. split; [| done].
    apply elem_of_cons. by left.
  - vm_compute. reflexivity.
  - vm_compute. reflexivity.
  - reflexivity.
  - reflexivity.
  - unfold is_int. rewrite int_min_value, int_max_value. simpl. lia.
  - intros Hin. vm_compute in Hin.
    repeat (apply elem_of_cons in Hin as [Hin | Hin]; [discriminate Hin |]).
    by apply elem_of_nil in Hin.
  - discriminate.
Defined.

(** The deletions that [DeleteTreeNode] hands to the store. *)
Lemma DeleteTreeNode_passed {DB} (ts : service.treeService DB)
    (ErrorTreeNodeHasChildren : string) (db : DB) (id : Z) :
  (service.DeleteTreeNode ts ErrorTreeNodeHasChildren db id).1 = None ->
  (∃ node, tree_node.GetByID (service.nodeDao ts) db id = Ok (Some node))
  ∧ tree_node.HasChildren (service.nodeDao ts) db id = Ok false.
Proof.
  unfold service.DeleteTreeNode.
  destruct (tree_node.GetByID (service.nodeDao ts) db id)
    as [[node|]|err]; [| done | done].
  destruct (tree_node.HasChildren (service.nodeDao ts) db id)
    as [[|]|err]; [done | | done].
  intros _. split; [by eexists | done].
Qed.

Lemma tc_subrel {A} (R R' : relation A) x y :
  (∀ a b, R a b -> R' a b) -> tc R x y -> tc R' x y.
Proof.
  intros Hsub Htc. induction Htc as [x y Hxy | x z y Hxz _ IH].
  - apply tc_once. by apply Hsub.
  - eapply tc_l; [by apply Hsub | done].
Qed.

(** A table that holds the invariant, without the row of an ID that no row
    names as parent, holds the invariant. *)
Lemma invariant_remove nodes id :
  invariant.holds nodes = true ->
  (∀ n, n ∈ nodes -> Pid n ≠ id) ->
  invariant.holds (filter (fun n => ID n ≠ id) nodes) = true.
Proof.
  rewrite !invariant_spec.
  intros (Hnd & Hac & Hleaf & Hpar & Hpos & Hlev) Hchildless.
  assert (Hin : ∀ n, n ∈ filter (fun n => ID n ≠ id) nodes -> n ∈ nodes).
  { intros n Hn. by apply list_elem_of_filter in Hn as [_ Hn]. }
  split; [| split; [| split; [| split; [| split]]]].
  - apply (sublist_NoDup (ID <$> filter (fun n => ID n ≠ id) nodes)
             (ID <$> nodes)); [done |].
    apply fmap_sublist, sublist_filter.
  - intros x Hcycle. apply (Hac x). revert Hcycle. apply tc_subrel.
    intros a b (n & Hn & Hid & Hpid). exists n. split; [by apply Hin | done].
  - intros n m Hn Hl Hm. apply Hleaf; [by apply Hin | done | by apply Hin].
  - intros n Hn. destruct (Hpar n (Hin n Hn)) as [Hz | Hp]; [by left |].
    right. apply list_elem_of_fmap in Hp as (p & Hid & Hp).
    rewrite Hid. apply list_elem_of_fmap_2, list_elem_of_filter.
    split; [| done]. rewrite <- Hid. apply Hchildless. by apply Hin.
  - intros n Hn. apply Hpos. by apply Hin.
  - intros n Hn. destruct (Hlev n (Hin n Hn)) as (Hi & Hroot & Hup).
    split; [done |]. split; [done |].
    intros p Hp. apply Hup. by apply Hin.
Qed.

(** X14.  [DeleteTreeNode] keeps the invariant of the node table.  Let the
    table hold the invariant and let the store's answer that an ID has no
    children mean that no row of the table names the ID as parent.  When the
    call reports no error, the table without the rows of that ID holds the
    invariant again: the check for children is what keeps every parent link
    pointing at a row. *)
Theorem DeleteTreeNode_keeps_invariant {DB} (ts : service.treeService DB)
    (ErrorTreeNodeHasChildren : string) (db : DB) (id : Z)
    (nodes : list TreeNode) :
  (tree_node.HasChildren (service.nodeDao ts) db id = Ok false ->
   ∀ n, n ∈ nodes -> Pid n ≠ id) ->
  invariant.holds nodes = true ->
  (service.DeleteTreeNode ts ErrorTreeNodeHasChildren db id).1 = None ->
  invariant.holds (filter (fun n => ID n ≠ id) nodes) = true.
Proof.
  intros Hstore Hinv Hpassed.
  apply DeleteTreeNode_passed in Hpassed as [_ Hnone].
  apply invariant_remove; [done | by apply Hstore].
Qed.

Lemma DeleteTreeNode_keeps_invariant_witness :
  invariant.holds (filter (fun n => ID n ≠ 3) sample.family) = true.
Proof.
  apply (DeleteTreeNode_keeps_invariant sample.svc "has children"
           (sample.db_of sample.family) 3 sample.family).
  - intros _ n Hin.
    repeat (apply elem_of_cons in Hin as [-> | Hin]; [discriminate |]).
    by apply elem_of_nil in Hin.
  - vm_compute. reflexivity.
  - vm_compute. reflexivity.
Defined.

Lemma node_row_app (rows more : list TreeNode) id :
  memory.node_row (rows ++ more) id
  = match memory.node_row rows id with
    | Some n => Some n
    | None => memory.node_row more id
    end.
Proof.
  unfold memory.node_row. induction rows as [|a l IH]; [done |].
  simpl. by destruct (bool_decide (ID a = id)).
Qed.

(** X15.  Over the store in memory, a node that was just created can be
    deleted, and the deletion gives back the store as it was.  The table
    needs every parent link to be 0 or the ID of a row, and the new node an
    ID that is new and not 0: then no row names the new node as parent, the
    new node does not name itself, and the check for children lets the
    deletion through. *)
Theorem create_then_delete (missing_node : option error) (missing_ecs : error)
    (ErrorTreeNodeHasChildren : string) (db db1 : memory.DB) (obj : TreeNode) :
  tree.parents_present (memory.nodes db) = true ->
  ID obj ∉ ID <$> memory.nodes db -> ID obj ≠ 0 ->
  service.CreateTreeNode (memory.treeService missing_node missing_ecs) db obj
  = (None, db1) ->
  service.DeleteTreeNode (memory.treeService missing_node missing_ecs)
    ErrorTreeNodeHasChildren db1 (ID obj)
  = (None, db).
Proof.
  intros Hpar Hfresh Hnz Hcreate.
  assert (Hpassed :
    (service.CreateTreeNode (memory.treeService missing_node missing_ecs)
       db obj).1 = None) by by rewrite Hcreate.
  apply CreateTreeNode_passed in Hpassed.
  assert (Hown : Pid obj ≠ ID obj).
  { destruct Hpassed as [[Hz _] | (parent & Hget & _)]; [congruence |].
    simpl in Hget. intros Heq.
    destruct (memory.node_row (memory.nodes db) (Pid obj)) as [n|] eqn:Hrow.
    - apply node_row_Some in Hrow as [Hin Hid]. apply Hfresh.
      rewrite <- Heq, <- Hid. by apply list_elem_of_fmap_2.
    - by destruct missing_node. }
  assert (Hdb1 : db1 = memory.with_nodes (memory.nodes db ++ [obj]) db).
  { revert Hcreate. unfold service.CreateTreeNode. simpl.
    destruct (decide (Pid obj = 0 ∧ Level obj = 1)) as [_|_]; [congruence |].
    destruct (memory.node_row (memory.nodes db) (Pid obj)) as [parent|].
    - destruct (decide (Level obj >= add (Level parent) 2)) as [_|_]; [done |].
      destruct (decide (IsLeaf parent = 1)) as [_|_]; [done | congruence].
    - by destruct missing_node. }
  subst db1. unfold service.DeleteTreeNode. simpl.
  assert (Hrow : memory.node_row (memory.nodes db ++ [obj]) (ID obj) = Some obj).
  { rewrite node_row_app.
    destruct (memory.node_row (memory.nodes db) (ID obj)) as [n|] eqn:Hf.
    - apply node_row_Some in Hf as [Hin Hid].
      destruct Hfresh. rewrite <- Hid. by apply list_elem_of_fmap_2.
    - unfold memory.node_row. simpl. by rewrite bool_decide_eq_true_2. }
  rewrite Hrow.
  assert (Hnone : existsb (fun n => bool_decide (Pid n = ID obj))
                    (memory.nodes db ++ [obj]) = false).
  { apply not_true_is_false. rewrite has_children_spec.
    intros (c & Hc & Hpid). apply elem_of_app in Hc as [Hc | Hc].
    - destruct (parents_present_spec _ _ Hpar Hc) as [Hz | Hp]; [congruence |].
      by rewrite Hpid in Hp.
    - apply list_elem_of_singleton in Hc as ->. done. }
  rewrite Hnone. f_equal. unfold memory.with_nodes. simpl.
  rewrite filter_app, filter_cons_False, filter_nil, app_nil_r by (intros H; by apply H).
  assert (Hsame : filter (fun n => ID n ≠ ID obj) (memory.nodes db)
                  = memory.nodes db).
  { clear -Hfresh. induction (memory.nodes db) as [|a l IH]; [done |].
    rewrite fmap_cons, not_elem_of_cons in Hfresh. destruct Hfresh as [Hne Hl].
    rewrite filter_cons_True by congruence. by rewrite IH. }
  rewrite Hsame. by destruct db.
Qed.

Lemma create_then_delete_witness :
  service.DeleteTreeNode sample.svc "has children"
    (memory.with_nodes (sample.family ++ [sample.node 4 1 2 0])
       (sample.db_of sample.family)) 4
  = (None, sample.db_of sample.family).
Proof.
  apply (create_then_delete None ErrResourceNotFound "has children"
           (sample.db_of sample.family) _ (sample.node 4 1 2 0)).
  - vm_compute. reflexivity.
  - intros Hin. vm_compute in Hin.
    repeat (apply elem_of_cons in Hin as [Hin | Hin]; [discriminate Hin |]).
    by apply elem_of_nil in Hin.
  - discriminate.
  - vm_compute. reflexivity.
Defined.

(** ** The users of a node *)

Section Users.
Context {DB : Type} (userDao : dao.UserDAO DB) (db : DB).

Lemma fetchUsers_from_acc userNames users :
  tree_service.fetchUsers_from userDao db userNames users
  = match tree_service.fetchUsers_from userDao db userNames [] with
    | Err err => Err err
    | Ok found => Ok (users ++ found)
    end.
Proof.
  revert users. induction userNames as [|name rest IH]; intros users; simpl.
  - by rewrite app_nil_r.
  - destruct (dao.GetUserByUsername userDao db name) as [user|err]; [| done].
    rewrite (IH (users ++ [user])), (IH [user]).
    destruct (tree_service.fetchUsers_from userDao db rest []); [| done].
    by rewrite <- app_assoc.
Qed.

Lemma fetchUsers_cons name rest role :
  tree_service.fetchUsers userDao db (name :: rest) role
  = match dao.GetUserByUsername userDao db name with
    | Err err => Err err
    | Ok user =>
        match tree_service.fetchUsers userDao db rest role with
        | Err err => Err err
        | Ok found => Ok (user :: found)
        end
    end.
Proof.
  unfold tree_service.fetchUsers. simpl.
  destruct (dao.GetUserByUsername userDao db name) as [user|err]; [| done].
  by rewrite fetchUsers_from_acc.
Qed.

(** Two lists fetched one after the other are the two lists fetched as
    one. *)
Lemma fetchUsers_app names more role role' role'' :
  tree_service.fetchUsers userDao db (names ++ more) role
  = match tree_service.fetchUsers userDao db names role' with
    | Err err => Err err
    | Ok found =>
        match tree_service.fetchUsers userDao db more role'' with
        | Err err => Err err
        | Ok found' => Ok (found ++ found')
        end
    end.
Proof.
  induction names as [|name rest IH]; simpl.
  - unfold tree_service.fetchUsers at 2. simpl.
    unfold tree_service.fetchUsers.
    by destruct (tree_service.fetchUsers_from userDao db more []).
  - rewrite !fetchUsers_cons, IH.
    destruct (dao.GetUserByUsername userDao db name) as [user|err]; [| done].
    destruct (tree_service.fetchUsers userDao db rest role'); [| done].
    by destruct (tree_service.fetchUsers userDao db more role'').
Qed.

Lemma fetchUsers_length names role users :
  tree_service.fetchUsers userDao db names role = Ok users ->
  length users = length names.
Proof.
  revert users. induction names as [|name rest IH]; intros users.
  - by intros [= <-].
  - rewrite fetchUsers_cons.
    destruct (dao.GetUserByUsername userDao db name) as [user|err]; [| done].
    destruct (tree_service.fetchUsers userDao db rest role) as [found|];
      [| done].
    intros [= <-]. simpl. by rewrite (IH found).
Qed.

End Users.

(** X16.  [fetchUsers] resolves all names or none.  It returns a list
    exactly when the store answers every name, and the list then has the
    store's answer for each name, in the order of the names; it returns an
    error exactly when the store fails on some name, and the error is the
    one of the first such name.  The role label has no part in the
    result. *)
Theorem fetchUsers_all_or_first_failure {DB} (userDao : dao.UserDAO DB)
    (db : DB) (userNames : list string) (role : string) :
  (∀ users,
     tree_service.fetchUsers userDao db userNames role = Ok users
     <-> Forall2 (fun name user =>
                    dao.GetUserByUsername userDao db name = Ok user)
                 userNames users)
  ∧ (∀ err,
       tree_service.fetchUsers userDao db userNames role = Err err
       <-> ∃ before name after,
             userNames = before ++ name :: after
             ∧ dao.GetUserByUsername userDao db name = Err err
             ∧ Forall (fun name' =>
                         ∃ user, dao.GetUserByUsername userDao db name' = Ok user)
                      before).
Proof.
  induction userNames as [|name rest [IHok IHerr]].
  - split.
    + intros users. unfold tree_service.fetchUsers. simpl. split.
      * intros [= <-]. constructor.
      * intros Hall. by apply Forall2_nil_inv_l in Hall as ->.
    + intros err. split; [done |].
      intros (before & name & after & Heq & _). by destruct before.
  - split.
    + intros users. rewrite fetchUsers_cons. split.
      * destruct (dao.GetUserByUsername userDao db name) as [user|err] eqn:Hget;
          [| done].
        destruct (tree_service.fetchUsers userDao db rest role) as [found|]
          eqn:Hrest; [| done].
        intros [= <-]. constructor; [done | by apply IHok].
      * intros Hall. apply Forall2_cons_inv_l in Hall
          as (user & found & Hget & Hfound & ->).
        rewrite Hget. apply IHok in Hfound. by rewrite Hfound.
    + intros err. rewrite fetchUsers_cons. split.
      * destruct (dao.GetUserByUsername userDao db name) as [user|err'] eqn:Hget.
        -- destruct (tree_service.fetchUsers userDao db rest role) as [found|err']
             eqn:Hrest; [done |].
           intros [= <-]. destruct (proj1 (IHerr err') eq_refl)
             as (before & name' & after & -> & Hfail & Hbefore).
           exists (name :: before), name', after.
           split; [done |]. split; [done |].
           constructor; [by eexists | done].
        -- intros [= <-]. exists [], name, rest. by repeat split.
      * intros (before & name' & after & Heq & Hfail & Hbefore).
        destruct before as [|first before].
        -- simpl in Heq. injection Heq as <- <-. by rewrite Hfail.
        -- simpl in Heq. injection Heq as <- ->.
           apply Forall_cons in Hbefore as [[user Hget] Hbefore].
           rewrite Hget.
           assert (Hrest : tree_service.fetchUsers userDao db
                             (before ++ name' :: after) role = Err err).
           { apply IHerr. by exists before, name', after. }
           by rewrite Hrest.
Qed.

Lemma fetchUsers_all_or_first_failure_witness :
  tree_service.fetchUsers sample_more.userDao sample.db_bound
    ["ann"; "ghost"; "bob"] "OpsAdmin"
  = Err (store_failure 2).
Proof.
  apply (proj2 (fetchUsers_all_or_first_failure sample_more.userDao
                  sample.db_bound ["ann"; "ghost"; "bob"] "OpsAdmin")).
  exists ["ann"], "ghost", ["bob"].
  split; [reflexivity |]. split; [reflexivity |].
  constructor; [| constructor]. eexists. reflexivity.
Defined.

(** X17.  [UpdateTreeNode] resolves the three name lists as one, operations
    administrators first, then development administrators, then development
    members.  When the fetch of the three lists joined fails, the call
    returns that error, the store is not written and the node's user fields
    stay as they were.  When it returns users, the store's [Update] is
    called once with the node's three user fields set to the three segments
    of that list, each as long as its name list; a failure of that write is
    returned as the fixed persistence error, not as the store's own. *)
Theorem UpdateTreeNode_resolves {DB} (userDao : dao.UserDAO DB)
    (nodeWrites : dao.TreeNodeWrites DB) (db : DB) (obj : TreeNode)
    (roles : TreeNodeRoles) :
  (∀ err,
     tree_service.fetchUsers userDao db
       (OpsAdminUsers roles ++ RdAdminUsers roles ++ RdMemberUsers roles) ""
     = Err err ->
     tree_service.UpdateTreeNode userDao nodeWrites db obj roles
     = (Some err, roles, db))
  ∧ (∀ users,
       tree_service.fetchUsers userDao db
         (OpsAdminUsers roles ++ RdAdminUsers roles ++ RdMemberUsers roles) ""
       = Ok users ->
       ∃ ops admins members,
         users = ops ++ admins ++ members
         ∧ length ops = length (OpsAdminUsers roles)
         ∧ length admins = length (RdAdminUsers roles)
         ∧ length members = length (RdMemberUsers roles)
         ∧ tree_service.UpdateTreeNode userDao nodeWrites db obj roles
           = let roles' :=
               mkTreeNodeRoles (OpsAdminUsers roles) (RdAdminUsers roles)
                 (RdMemberUsers roles) ops admins members in
             match dao.node_Update nodeWrites db obj roles' with
             | (Some _, db') =>
                 (Some (errors_New "持久化树节点信息失败"), roles', db')
             | (None, db') => (None, roles', db')
             end).
Proof.
  unfold tree_service.UpdateTreeNode.
  rewrite (fetchUsers_app userDao db (OpsAdminUsers roles) _ "" "OpsAdmin" "").
  rewrite (fetchUsers_app userDao db (RdAdminUsers roles) _ "" "RdAdmin"
             "RdMember").
  destruct (tree_service.fetchUsers userDao db (OpsAdminUsers roles) "OpsAdmin")
    as [ops|e1] eqn:Hops.
  - destruct (tree_service.fetchUsers userDao db (RdAdminUsers roles) "RdAdmin")
      as [admins|e2] eqn:Hadmins.
    + destruct (tree_service.fetchUsers userDao db (RdMemberUsers roles)
                  "RdMember") as [members|e3] eqn:Hmembers.
      * split; [done |]. intros users [= <-]. exists ops, admins, members.
        split; [done |].
        split; [by eapply fetchUsers_length |].
        split; [by eapply fetchUsers_length |].
        split; [by eapply fetchUsers_length | done].
      * split; [| done]. by intros err [= <-].
    + split; [| done]. by intros err [= <-].
  - split; [| done]. by intros err [= <-].
Qed.

Lemma UpdateTreeNode_resolves_witness :
  tree_service.UpdateTreeNode sample_more.userDao sample_more.nodeWrites_failing
    sample.db_bound (sample.node 1 0 1 0) sample_more.roles_ghost
  = (Some (store_failure 2), sample_more.roles_ghost, sample.db_bound)
  ∧ ∃ ops admins members,
      [Some (mkUser 3 "ann"); Some (mkUser 3 "bob"); Some (mkUser 2 "cy")]
      = ops ++ admins ++ members
      ∧ length ops = 1%nat ∧ length admins = 0%nat ∧ length members = 2%nat
      ∧ tree_service.UpdateTreeNode sample_more.userDao
          sample_more.nodeWrites_failing sample.db_bound (sample.node 1 0 1 0)
          sample_more.roles_known
        = (Some (errors_New "持久化树节点信息失败"),
           mkTreeNodeRoles ["ann"] [] ["bob"; "cy"] ops admins members,
           sample.db_bound).
Proof.
  split.
  - apply (proj1 (UpdateTreeNode_resolves sample_more.userDao
                    sample_more.nodeWrites_failing sample.db_bound
                    (sample.node 1 0 1 0) sample_more.roles_ghost)).
    reflexivity.
  - apply (proj2 (UpdateTreeNode_resolves sample_more.userDao
                    sample_more.nodeWrites_failing sample.db_bound
                    (sample.node 1 0 1 0) sample_more.roles_known)).
    reflexivity.
Defined.

(** ** The resource hash *)

Lemma string_app_assoc (a b c : string) :
  ((a +:+ b) +:+ c = a +:+ (b +:+ c))%string.
Proof.
  induction a as [|x a IH]; [done |].
  change (String x ((a +:+ b) +:+ c) = String x (a +:+ (b +:+ c))).
  by rewrite IH.
Qed.

Lemma EncodeToString_length (src : list Byte.byte) :
  String.length (tree_service.EncodeToString src) = (2 * length src)%nat.
Proof. induction src as [|v rest IH]; simpl; [done | rewrite IH; lia]. Qed.

(** Both digits of a byte are characters of the table. *)
Lemma hexdigit_in_table (v : Byte.byte) :
  existsb (Ascii.eqb (tree_service.hexdigit (N.shiftr (Byte.to_N v) 4)))
          (String.list_ascii_of_string tree_service.hextable)
  && existsb (Ascii.eqb (tree_service.hexdigit (N.land (Byte.to_N v) 15)))
             (String.list_ascii_of_string tree_service.hextable)
  = true.
Proof. destruct v; reflexivity. Qed.

Lemma table_member (c : Ascii.ascii) :
  existsb (Ascii.eqb c) (String.list_ascii_of_string tree_service.hextable)
  = true ->
  c ∈ String.list_ascii_of_string tree_service.hextable.
Proof.
  intros (x & Hx & Heq)%existsb_exists. apply Ascii.eqb_eq in Heq as ->.
  by apply list_elem_of_In.
Qed.

Lemma EncodeToString_digits (src : list Byte.byte) :
  Forall (fun c => c ∈ String.list_ascii_of_string tree_service.hextable)
         (String.list_ascii_of_string (tree_service.EncodeToString src)).
Proof.
  induction src as [|v rest IH]; simpl; [constructor |].
  pose proof (hexdigit_in_table v) as [Hhi Hlo]%andb_true_iff.
  constructor; [by apply table_member |].
  constructor; [by apply table_member | done].
Qed.

(** X18.  The hash [CreateEcsResource] stores.  With a digest of 32 bytes,
    as SHA-256 gives, the resource handed to the store and back to the
    caller has as [Hash] 64 characters, each one of [0123456789abcdef]; the
    hash comes from the instance name and the address alone, so whatever
    [Hash] the request carried is overwritten, and the other fields are the
    request's.  The store's answer is returned as it is. *)
Theorem CreateEcsResource_hash {DB} (ecs_Create : DB -> ResourceEcs -> option error * DB)
    (Sum256 : list Byte.byte -> list Byte.byte) (db : DB)
    (resource : ResourceEcs) :
  (∀ data, length (Sum256 data) = 32%nat) ->
  ∃ stored,
    tree_service.CreateEcsResource ecs_Create Sum256 db resource
    = ((ecs_Create db stored).1, stored, (ecs_Create db stored).2)
    ∧ String.length (Hash (ecs_ResourceTree stored)) = 64%nat
    ∧ Forall (fun c => c ∈ String.list_ascii_of_string "0123456789abcdef")
             (String.list_ascii_of_string (Hash (ecs_ResourceTree stored)))
    ∧ (∀ h, Hash (ecs_ResourceTree stored)
            = Hash (ecs_ResourceTree
                      (tree_service.CreateEcsResource ecs_Create Sum256 db
                         (set_Hash h resource)).1.2))
    ∧ rt_ID (ecs_ResourceTree stored) = rt_ID (ecs_ResourceTree resource)
    ∧ InstanceName (ecs_ResourceTree stored)
      = InstanceName (ecs_ResourceTree resource)
    ∧ ecs_IpAddr stored = ecs_IpAddr resource
    ∧ ecs_BindNodes stored = ecs_BindNodes resource.
Proof.
  intros Hdigest.
  exists (set_Hash (tree_service.generateResourceHash Sum256 resource) resource).
  split; [| split; [| split; [| split]]].
  - unfold tree_service.CreateEcsResource.
    by destruct (ecs_Create db _) as [[err|] db'].
  - simpl. unfold tree_service.generateResourceHash.
    rewrite EncodeToString_length, Hdigest. reflexivity.
  - simpl. unfold tree_service.generateResourceHash.
    apply EncodeToString_digits.
  - intros h. unfold tree_service.CreateEcsResource.
    by destruct (ecs_Create db _) as [[err|] db'].
  - done.
Qed.

Lemma CreateEcsResource_hash_witness :
  ∃ stored,
    tree_service.CreateEcsResource
      (fun db r => (None, memory.with_ecs_rows (memory.ecs_rows db ++ [r]) db))
      sample_more.zero_digest sample.db_bound sample_more.E3
    = (None, stored,
       memory.with_ecs_rows (memory.ecs_rows sample.db_bound ++ [stored])
         sample.db_bound)
    ∧ String.length (Hash (ecs_ResourceTree stored)) = 64%nat.
Proof.
  destruct (CreateEcsResource_hash
              (fun db r =>
                 (None, memory.with_ecs_rows (memory.ecs_rows db ++ [r]) db))
              sample_more.zero_digest sample.db_bound sample_more.E3
              ltac:(reflexivity))
    as (stored & Hcall & Hlen & _).
  exists stored. split; [exact Hcall | exact Hlen].
Defined.

(** X19.  The resource hash does not tell the instance name from the
    address.  The hashed text is the name, a hyphen and the address; when
    the name of one resource is the name of another followed by a hyphen
    and some text, and the address of the other is that text, a hyphen and
    the address of the first, the two get the same hash, whatever the
    digest function is. *)
Theorem generateResourceHash_separator
    (Sum256 : list Byte.byte -> list Byte.byte) (r1 r2 : ResourceEcs)
    (mid : string) :
  InstanceName (ecs_ResourceTree r1)
  = (InstanceName (ecs_ResourceTree r2) +:+ "-" +:+ mid)%string ->
  ecs_IpAddr r2 = (mid +:+ "-" +:+ ecs_IpAddr r1)%string ->
  tree_service.generateResourceHash Sum256 r1
  = tree_service.generateResourceHash Sum256 r2.
Proof.
  intros Hname Haddr. unfold tree_service.generateResourceHash.
  rewrite Hname, Haddr. by rewrite !string_app_assoc.
Qed.

Lemma generateResourceHash_separator_witness :
  InstanceName (ecs_ResourceTree sample_more.E3)
  ≠ InstanceName (ecs_ResourceTree sample_more.E4)
  ∧ tree_service.generateResourceHash (fun data => data) sample_more.E3
    = tree_service.generateResourceHash (fun data => data) sample_more.E4.
Proof.
  split; [discriminate |].
  apply (generateResourceHash_separator (fun data => data) sample_more.E3
           sample_more.E4 "eu"); reflexivity.
Defined.

(** ** The menus of a role *)

Section Menus.
Context {DB : Type} (menuDao : dao.MenuDAO DB) (db : DB).

Lemma getMenusByIDs_from_acc menuIds menus :
  role.getMenusByIDs_from menuDao db menuIds menus
  = match role.getMenusByIDs_from menuDao db menuIds [] with
    | Err err => Err err
    | Ok found => Ok (menus ++ found)
    end.
Proof.
  revert menus. induction menuIds as [|menuId rest IH]; intros menus; simpl.
  - by rewrite app_nil_r.
  - destruct (dao.GetMenuByID menuDao db menuId) as [menu|err]; [| done].
    rewrite (IH (menus ++ [menu])), (IH [menu]).
    destruct (role.getMenusByIDs_from menuDao db rest []); [| done].
    by rewrite <- app_assoc.
Qed.

Lemma getMenusByIDs_cons menuId rest :
  role.getMenusByIDs menuDao db (menuId :: rest)
  = match dao.GetMenuByID menuDao db menuId with
    | Err err => Err err
    | Ok menu =>
        match role.getMenusByIDs menuDao db rest with
        | Err err => Err err
        | Ok found => Ok (menu :: found)
        end
    end.
Proof.
  unfold role.getMenusByIDs. simpl.
  destruct (dao.GetMenuByID menuDao db menuId) as [menu|err]; [| done].
  by rewrite getMenusByIDs_from_acc.
Qed.

(** The menus come back when the store answers every ID, one menu for each
    ID and in the order of the IDs. *)
Lemma getMenusByIDs_resolved menuIds menus :
  role.getMenusByIDs menuDao db menuIds = Ok menus
  <-> Forall2 (fun menuId menu => dao.GetMenuByID menuDao db menuId = Ok menu)
              menuIds menus.
Proof.
  revert menus. induction menuIds as [|menuId rest IH]; intros menus.
  - unfold role.getMenusByIDs. simpl. split.
    + intros [= <-]. constructor.
    + intros Hall. by apply Forall2_nil_inv_l in Hall as ->.
  - rewrite getMenusByIDs_cons. split.
    + destruct (dao.GetMenuByID menuDao db menuId) as [menu|err] eqn:Hget;
        [| done].
      destruct (role.getMenusByIDs menuDao db rest) as [found|] eqn:Hrest;
        [| done].
      intros [= <-]. constructor; [done | by apply IH].
    + intros Hall. apply Forall2_cons_inv_l in Hall
        as (menu & found & Hget & Hfound & ->).
      rewrite Hget. apply IH in Hfound. by rewrite Hfound.
Qed.

(** The error is the one of the first ID the store fails on. *)
Lemma getMenusByIDs_failed before menuId after err :
  Forall (fun menuId' => ∃ menu, dao.GetMenuByID menuDao db menuId' = Ok menu)
         before ->
  dao.GetMenuByID menuDao db menuId = Err err ->
  role.getMenusByIDs menuDao db (before ++ menuId :: after) = Err err.
Proof.
  intros Hbefore Hfail. induction Hbefore as [|first before [menu Hget] _ IH].
  - simpl. by rewrite getMenusByIDs_cons, Hfail.
  - simpl. by rewrite getMenusByIDs_cons, Hget, IH.
Qed.

End Menus.

(** X20.  [CreateRole] and [UpdateRole] write a role only with all its
    menus resolved.  When the menu store fails on one of the role's menu
    IDs, having answered the IDs before it, both return that error and the
    state is the one before the call.  When the menu store answers every
    ID, both make the one store call, with the role's menus set to the
    store's answers, one for each ID and in the order of the IDs, in place
    of whatever menus the request carried. *)
Theorem role_writes_resolved {DB} (menuDao : dao.MenuDAO DB)
    (roleDao : dao.RoleDAO DB) (db : DB) (r : Role) :
  (∀ before menuId after err,
     MenuIds r = before ++ menuId :: after ->
     Forall (fun menuId' => ∃ menu, dao.GetMenuByID menuDao db menuId' = Ok menu)
            before ->
     dao.GetMenuByID menuDao db menuId = Err err ->
     role.CreateRole menuDao roleDao db r = (Some err, db)
     ∧ role.UpdateRole menuDao roleDao db r = (Some err, db))
  ∧ (∀ menus,
       Forall2 (fun menuId menu => dao.GetMenuByID menuDao db menuId = Ok menu)
               (MenuIds r) menus ->
       role.CreateRole menuDao roleDao db r
       = dao.role_CreateRole roleDao db (mkRole (role_Name r) (MenuIds r) menus)
       ∧ role.UpdateRole menuDao roleDao db r
         = dao.role_UpdateRole roleDao db (mkRole (role_Name r) (MenuIds r) menus)).
Proof.
  unfold role.CreateRole, role.UpdateRole. split.
  - intros before menuId after err Hids Hbefore Hfail.
    by rewrite Hids, (getMenusByIDs_failed menuDao db _ _ _ _ Hbefore Hfail).
  - intros menus Hall. apply getMenusByIDs_resolved in Hall.
    by rewrite Hall.
Qed.

Lemma role_writes_resolved_witness :
  (role.CreateRole sample_more.menuDao sample_more.roleDao sample.db_bound
     (mkRole "ops" [2; 5; 1] [])
   = (Some (store_failure 4), sample.db_bound)
   ∧ role.UpdateRole sample_more.menuDao sample_more.roleDao sample.db_bound
       (mkRole "ops" [2; 5; 1] [])
     = (Some (store_failure 4), sample.db_bound))
  ∧ role.CreateRole sample_more.menuDao sample_more.roleDao sample.db_bound
      (mkRole "ops" [2; 1] [None])
    = dao.role_CreateRole sample_more.roleDao sample.db_bound
        (mkRole "ops" [2; 1] [Some (mkMenu 2 "menu"); Some (mkMenu 1 "menu")]).
Proof.
  split.
  - apply (proj1 (role_writes_resolved sample_more.menuDao sample_more.roleDao
                    sample.db_bound (mkRole "ops" [2; 5; 1] []))
             [2] 5 [1] (store_failure 4)).
    + reflexivity.
    + constructor; [| constructor]. eexists. reflexivity.
    + reflexivity.
  - apply (proj2 (role_writes_resolved sample_more.menuDao sample_more.roleDao
                    sample.db_bound (mkRole "ops" [2; 1] [None]))
             [Some (mkMenu 2 "menu"); Some (mkMenu 1 "menu")]).
    repeat constructor.
Defined.

(** ** What a result of the ECS deletion tells *)

(** X21.  [DeleteEcsResource] read backwards, from its result to what the
    store did.  It panics exactly when the store answers a fetch with
    neither a resource nor an error: the resource is used without a nil
    check.  When it succeeds, the store had the resource, the resource had
    no bound node, and the state is the one the store's [Delete] left.
    When it fails, the error is either [ErrResourceBound], with a resource
    that has a bound node and the state untouched, or an error that wraps a
    store error: the one of the fetch, with the state untouched, or the one
    of the [Delete] of an unbound resource.  A store error is never
    returned bare. *)
Theorem DeleteEcsResource_outcomes {DB} (ts : service.treeService DB)
    (db : DB) (id : Z) :
  (service.DeleteEcsResource ts db id = Panic
   <-> ecs.GetByID (service.ecsDao ts) db id = Ok None)
  ∧ (∀ db',
       service.DeleteEcsResource ts db id = Return (None, db') ->
       ∃ resource,
         ecs.GetByID (service.ecsDao ts) db id = Ok (Some resource)
         ∧ ecs_BindNodes resource = []
         ∧ ecs.Delete (service.ecsDao ts) db id = (None, db'))
  ∧ (∀ failure db',
       service.DeleteEcsResource ts db id = Return (Some failure, db') ->
       (failure = ErrResourceBound ∧ db' = db
        ∧ ∃ resource,
            ecs.GetByID (service.ecsDao ts) db id = Ok (Some resource)
            ∧ ecs_BindNodes resource ≠ [])
       ∨ (∃ msg err,
            failure = fmt_Errorf msg err
            ∧ ((ecs.GetByID (service.ecsDao ts) db id = Err err ∧ db' = db)
               ∨ (∃ resource,
                    ecs.GetByID (service.ecsDao ts) db id = Ok (Some resource)
                    ∧ ecs_BindNodes resource = []
                    ∧ ecs.Delete (service.ecsDao ts) db id = (Some err, db'))))).
Proof.
  unfold service.DeleteEcsResource.
  destruct (ecs.GetByID (service.ecsDao ts) db id) as [[resource|]|err] eqn:Hget.
  - assert (Hbound : len (ecs_BindNodes resource) > 0
                     <-> ecs_BindNodes resource ≠ []).
    { unfold len. destruct (ecs_BindNodes resource); simpl; [| split; [done | lia]].
      split; [lia | done]. }
    destruct (decide (len (ecs_BindNodes resource) > 0)) as [Hlen|Hlen].
    + split; [done |]. split; [done |].
      intros failure db' [= <- <-]. left.
      split; [done |]. split; [done |]. exists resource. split; [done |].
      by apply Hbound.
    + assert (Hfree : ecs_BindNodes resource = []).
      { destruct (ecs_BindNodes resource) as [|n l] eqn:Hnodes; [done |].
        destruct Hlen. apply Hbound. done. }
      destruct (ecs.Delete (service.ecsDao ts) db id) as [[err|] db1] eqn:Hdel.
      * split; [done |]. split; [done |].
        intros failure db' [= <- <-]. right. eexists _, err.
        split; [done |]. right. by exists resource.
      * split; [done |]. split; [| done].
        intros db' [= <-]. by exists resource.
  - split; [done |]. split; done.
  - destruct (errors_Is err ErrResourceNotFound).
    + split; [done |]. split; [done |].
      intros failure db' [= <- <-]. right. eexists _, err.
      split; [done |]. by left.
    + split; [done |]. split; [done |].
      intros failure db' [= <- <-]. right. eexists _, err.
      split; [done |]. by left.
Qed.

Lemma DeleteEcsResource_outcomes_witness :
  ∃ resource,
    ecs.GetByID (service.ecsDao sample.svc) sample.db_bound 2
    = Ok (Some resource)
    ∧ ecs_BindNodes resource = []
    ∧ ecs.Delete (service.ecsDao sample.svc) sample.db_bound 2
      = (None, memory.mkDB sample.family [sample.E1] [] []).
Proof.
  apply (proj1 (proj2 (DeleteEcsResource_outcomes sample.svc sample.db_bound 2))).
  reflexivity.
Defined.
